(** * Greenlight: the per-client rate limiter of [cmd/api/middleware.go]

    The development embeds [application.rateLimit]: the [clients] map from
    client address to [Client], the request handler that creates, stamps and
    consults a client's limiter under the mutex, and the background goroutine
    that sweeps stale entries once a minute.

    Instants and durations follow Go's [time] package: a [Duration] is a
    count of nanoseconds held in an int64, and an instant is counted in
    nanoseconds from the zero [time.Time].  The [float64] fields ([rps], the
    token count) are taken as exact rationals. *)

From Stdlib Require Import ZArith QArith Qround Lia Lqa Ascii.
From Stdlib Require DecimalString DecimalZ DecimalPos.
From stdpp Require Import base gmap strings list.

Local Open Scope Z_scope.

(** ** Go's [time] package, as far as the middleware uses it *)

Module time.

Definition Duration : Type := Z.
Definition Time : Type := Z.

Definition Nanosecond : Duration := 1.
Definition Microsecond : Duration := 1000 * Nanosecond.
Definition Millisecond : Duration := 1000 * Microsecond.
Definition Second : Duration := 1000 * Millisecond.
Definition Minute : Duration := 60 * Second.

Definition minDuration : Duration := - 2 ^ 63.
Definition maxDuration : Duration := 2 ^ 63 - 1.

(** [t.Sub(u)]: the duration [t - u], saturated to the int64 range. *)
Definition Sub (t u : Time) : Duration :=
  if t - u <? minDuration then minDuration
  else if maxDuration <? t - u then maxDuration
  else t - u.

(** [time.Since(t)] is [time.Now().Sub(t)]; the clock reading is passed in. *)
Definition Since (now t : Time) : Duration := Sub now t.

(** [d.Seconds()]: the duration as a number of seconds. *)
Definition Seconds (d : Duration) : Q := d # 1000000000.

End time.

(** ** The token bucket behind [rate.NewLimiter] and [Limiter.Allow] *)

Module rate.

(** Modelled from the spec: the limiter type of golang.org/x/time/rate
    ([rate.Limiter], built by [rate.NewLimiter] and consulted by [Allow]) is
    an imported package whose code is not part of the repository's files.
    The record carries the four attributes of the spec's TokenBucket. *)
Record Limiter : Type := mkLimiter {
  capacity : Z;
  refillRatePerSecond : Q;
  tokens : Q;
  lastRefillInstant : time.Time
}.

(** Modelled from the spec: [rate.NewLimiter] is missing; a bucket is
    created initialized to full capacity, and its lastRefillInstant starts
    at the instant of creation. *)
Definition NewLimiter (r : Q) (b : Z) (now : time.Time) : Limiter :=
  {| capacity := b;
     refillRatePerSecond := r;
     tokens := inject_Z b;
     lastRefillInstant := now |}.

(** Modelled from the spec: the lazy refill of the missing [Allow]: add
    elapsed * refillRatePerSecond tokens, capped at capacity, and move
    lastRefillInstant to now. *)
Definition refill (lim : Limiter) (now : time.Time) : Limiter :=
  let elapsed := time.Seconds (now - lastRefillInstant lim) in
  let filled := (tokens lim + elapsed * refillRatePerSecond lim)%Q in
  {| capacity := capacity lim;
     refillRatePerSecond := refillRatePerSecond lim;
     tokens := if Qle_bool (inject_Z (capacity lim)) filled
               then inject_Z (capacity lim) else filled;
     lastRefillInstant := now |}.

(** Modelled from the spec: the missing [Limiter.Allow] (tryAdmit): after
    the refill, if tokens >= 1 subtract 1 and let the request through; else
    refuse, with no change to the tokens beyond the refill. *)
Definition Allow (lim : Limiter) (now : time.Time) : Limiter * bool :=
  let lim' := refill lim now in
  if Qle_bool 1 (tokens lim')
  then ({| capacity := capacity lim';
           refillRatePerSecond := refillRatePerSecond lim';
           tokens := (tokens lim' - 1)%Q;
           lastRefillInstant := lastRefillInstant lim' |}, true)
  else (lim', false).

End rate.

Arguments rate.refill : simpl never.
Arguments rate.Allow : simpl never.

(** ** Configuration ([config.limiter] in [cmd/api/main.go]) *)

Record limiter_config : Type := mkLimiterConfig {
  rps : Q;
  burst : Z;
  enabled : bool
}.

(** The fields as [flag.Float64Var], [flag.IntVar] and [flag.BoolVar] fill
    them from the command line: each flag's value is stored as parsed, with
    no range check. *)
Definition parse_limiter_flags (limiter_rps : Q) (limiter_burst : Z)
    (limiter_enabled : bool) : limiter_config :=
  {| rps := limiter_rps; burst := limiter_burst; enabled := limiter_enabled |}.

(** The defaults of the three flags. *)
Definition default_limiter_config : limiter_config :=
  parse_limiter_flags 2 4 true.

(** ** The registry and the request handler *)

Record Client : Type := mkClient {
  limiter : rate.Limiter;
  lastSeen : time.Time
}.

(** What the handler does with the request: [Allow] calls [next.ServeHTTP],
    [Deny] sends [rateLimitExceededResponse]. *)
Inductive Verdict : Type := Allow | Deny.

Global Instance Verdict_eq_dec : EqDecision Verdict.
Proof. solve_decision. Defined.

(** Lines 96-98: [if _, found := clients[ip]; !found { clients[ip] = &Client{...} }].
    The new client's [lastSeen] is the zero [time.Time]. *)
Definition ensure_client (cfg : limiter_config) (ip : string) (now : time.Time)
    (clients : gmap string Client) : gmap string Client :=
  match clients !! ip with
  | Some _ => clients
  | None =>
      <[ip := {| limiter := rate.NewLimiter (rps cfg) (burst cfg) now;
                 lastSeen := 0 |}]> clients
  end.

(** Line 101: [clients[ip].lastSeen = time.Now()].  A missing entry is a nil
    pointer, whose dereference panics: [None]. *)
Definition touch (ip : string) (now : time.Time)
    (clients : gmap string Client) : option (gmap string Client) :=
  c ← clients !! ip;
  Some (<[ip := {| limiter := limiter c; lastSeen := now |}]> clients).

(** Line 105: [clients[ip].limiter.Allow()], which updates the limiter in
    place. *)
Definition consult (ip : string) (now : time.Time)
    (clients : gmap string Client) : option (gmap string Client * bool) :=
  c ← clients !! ip;
  let '(lim, ok) := rate.Allow (limiter c) now in
  Some (<[ip := {| limiter := lim; lastSeen := lastSeen c |}]> clients, ok).

(** Lines 96-115, the section between [mutex.Lock()] and [mutex.Unlock()].
    The clock readings of one pass are taken as the one instant [now]. *)
Definition critical_section (cfg : limiter_config) (ip : string) (now : time.Time)
    (clients : gmap string Client) : option (gmap string Client * Verdict) :=
  clients1 ← touch ip now (ensure_client cfg ip now clients);
  '(clients2, ok) ← consult ip now clients1;
  Some (clients2, if ok : bool then Allow else Deny).

(** Lines 85-119: the handler returned by [rateLimit], for a request whose
    address [realip.FromRequest] resolved to [ip]. *)
Definition rateLimit (cfg : limiter_config) (ip : string) (now : time.Time)
    (clients : gmap string Client) : option (gmap string Client * Verdict) :=
  if enabled cfg then critical_section cfg ip now clients
  else Some (clients, Allow).

(** ** The background sweep (lines 64-83) *)

(** [time.Since(client.lastSeen) > 3*time.Minute] *)
Definition stale (now : time.Time) (c : Client) : Prop :=
  3 * time.Minute < time.Since now (lastSeen c).

Global Instance stale_dec now c : Decision (stale now c).
Proof. unfold stale. apply _. Defined.

(** The [range] loop over [clients]: [clock ip] is the clock reading taken
    when the loop visits the entry of [ip]. *)
Definition sweep (clock : string → time.Time)
    (clients : gmap string Client) : gmap string Client :=
  filter (λ entry, ¬ stale (clock entry.1) entry.2) clients.

(** ** The background goroutine (lines 64-83) *)

(** How a pass through the body of a [for] loop ends: at its closing brace,
    to go round again, or at a [break] or [return]. *)
Inductive Control : Type := Continue | Exit.

(** What the goroutine finds when [time.Sleep(time.Minute)] returns: whether
    the server has begun its graceful shutdown, and the clock. *)
Record WakeUp : Type := mkWakeUp {
  shutting_down : bool;
  reading : string → time.Time
}.

(** One pass of the body: the sleep, then the sweep between [mutex.Lock()]
    and [mutex.Unlock()].  The body has no [break] and no [return], and no
    statement of it looks at the state of the server. *)
Definition evictor_pass (wk : WakeUp) (clients : gmap string Client)
    : Control * gmap string Client :=
  (Continue, sweep (reading wk) clients).

(** Where the goroutine is after some wake-ups. *)
Inductive Goroutine : Type :=
  | Running (clients : gmap string Client)
  | Returned (clients : gmap string Client).

(** [for { ... }] over the given wake-ups. *)
Fixpoint evictor (wakes : list WakeUp) (clients : gmap string Client) : Goroutine :=
  match wakes with
  | [] => Running clients
  | wk :: rest =>
      match evictor_pass wk clients with
      | (Continue, clients') => evictor rest clients'
      | (Exit, clients') => Returned clients'
      end
  end.

(** ** Runs of the server *)

(** What happens to the registry, in the order the mutex grants it: a
    request resolved to [ip] arrives at [now], or the background goroutine
    wakes up and sweeps. *)
Inductive Event : Type :=
  | Request (ip : string) (now : time.Time)
  | Sweep (clock : string → time.Time).

(** The registry after the events, and the verdict of each request. *)
Fixpoint serve (cfg : limiter_config) (events : list Event)
    (clients : gmap string Client)
    : option (gmap string Client * list (string * Verdict)) :=
  match events with
  | [] => Some (clients, [])
  | Request ip now :: rest =>
      '(clients', v) ← rateLimit cfg ip now clients;
      '(final, log) ← serve cfg rest clients';
      Some (final, (ip, v) :: log)
  | Sweep clock :: rest => serve cfg rest (sweep clock clients)
  end.

(** The requests are stamped by a clock that does not run backwards. *)
Fixpoint chronological (t : time.Time) (events : list Event) : Prop :=
  match events with
  | [] => True
  | Request _ now :: rest => t ≤ now ∧ chronological now rest
  | Sweep _ :: rest => chronological t rest
  end.

(** The verdicts given to [ip], in order. *)
Definition verdicts_of (ip : string) (log : list (string * Verdict)) : list Verdict :=
  snd <$> filter (λ entry, entry.1 = ip) log.

(** The events that remain when [ip] sends nothing. *)
Definition silent (ip : string) (e : Event) : Prop :=
  match e with
  | Request ip' _ => ip' ≠ ip
  | Sweep _ => True
  end.

Global Instance silent_dec ip e : Decision (silent ip e).
Proof. destruct e; simpl; apply _. Defined.

Definition without (ip : string) (events : list Event) : list Event :=
  filter (silent ip) events.

(** The limiter a request of [ip] consults: the stored one, or a new one. *)
Definition bucket_of (cfg : limiter_config) (ip : string) (now : time.Time)
    (clients : gmap string Client) : rate.Limiter :=
  match clients !! ip with
  | Some c => limiter c
  | None => rate.NewLimiter (rps cfg) (burst cfg) now
  end.

Definition verdict (ok : bool) : Verdict := if ok then Allow else Deny.

(** [n] calls of [Allow] at one instant. *)
Fixpoint drain (lim : rate.Limiter) (now : time.Time) (n : nat)
    : rate.Limiter * list bool :=
  match n with
  | O => (lim, [])
  | S n' =>
      let '(lim1, ok) := rate.Allow lim now in
      let '(lim2, oks) := drain lim1 now n' in
      (lim2, ok :: oks)
  end.

(** An exhausted bucket of the registry used in the examples: no token
    left at instant 7. *)
Definition spent_registry : gmap string Client :=
  {[ "192.0.2.1" := {| limiter := {| rate.capacity := 4;
                                     rate.refillRatePerSecond := 2;
                                     rate.tokens := 0;
                                     rate.lastRefillInstant := 7 |};
                       lastSeen := 7 |} ]}.

(** The bounds of the data model, with what keeps them. *)
Definition in_bounds (t : time.Time) (c : Client) : Prop :=
  (0 <= rate.tokens (limiter c))%Q ∧
  (rate.tokens (limiter c) <= inject_Z (rate.capacity (limiter c)))%Q ∧
  0 ≤ rate.capacity (limiter c) ∧
  (0 <= rate.refillRatePerSecond (limiter c))%Q ∧
  rate.lastRefillInstant (limiter c) ≤ t.

(** What the handler returns, in one expression. *)
Definition outcome (cfg : limiter_config) (ip : string) (now : time.Time)
    (clients : gmap string Client) : gmap string Client * Verdict :=
  if enabled cfg
  then (<[ip := {| limiter := (rate.Allow (bucket_of cfg ip now clients) now).1;
                   lastSeen := now |}]> clients,
        verdict (rate.Allow (bucket_of cfg ip now clients) now).2)
  else (clients, Allow).

(** ** Concurrent requests

    Each request runs the handler in a goroutine of its own; the goroutines
    take turns statement by statement, in any order.  A goroutine stands
    before one of the handler's statements: *)
Inductive Pc : Type :=
  | Arrived                 (* line 87, then [mutex.Lock()] at line 92 *)
  | AtLookup                (* line 96: [_, found := clients[ip]] *)
  | AtCreate                (* line 97: [clients[ip] = &Client{...}] *)
  | AtSeen                  (* line 101: [clients[ip].lastSeen = time.Now()] *)
  | AtAllow                 (* line 105: [clients[ip].limiter.Allow()] *)
  | AtUnlock (v : Verdict)  (* line 106 or 115: [mutex.Unlock()] *)
  | Left (v : Verdict).     (* the response is on its way *)

Global Instance Pc_eq_dec : EqDecision Pc.
Proof. solve_decision. Defined.

(** The mutex with the goroutine that holds it, the [clients] map, and where
    each goroutine stands. *)
Record World : Type := mkWorld {
  mutex : option nat;
  registry : gmap string Client;
  pcs : list Pc
}.

(** What a turn of a goroutine comes to: it runs its statement, it waits
    (for the mutex, or it has nothing left to run), or it panics. *)
Inductive Move : Type :=
  | Moved (w : World)
  | Waits
  | Panics.

Definition goto (i : nat) (pc : Pc) (clients : gmap string Client) (w : World) : World :=
  {| mutex := mutex w; registry := clients; pcs := <[i := pc]> (pcs w) |}.

(** One turn of goroutine [i], whose request resolved to [ip] and whose
    clock reads [now]. *)
Definition move (cfg : limiter_config) (ip : string) (now : time.Time)
    (i : nat) (w : World) : Move :=
  match pcs w !! i with
  | None => Waits
  | Some Arrived =>
      if enabled cfg then
        match mutex w with
        | None => Moved {| mutex := Some i; registry := registry w;
                           pcs := <[i := AtLookup]> (pcs w) |}
        | Some _ => Waits
        end
      else Moved (goto i (Left Allow) (registry w) w)
  | Some AtLookup =>
      match registry w !! ip with
      | Some _ => Moved (goto i AtSeen (registry w) w)
      | None => Moved (goto i AtCreate (registry w) w)
      end
  | Some AtCreate =>
      Moved (goto i AtSeen
               (<[ip := {| limiter := rate.NewLimiter (rps cfg) (burst cfg) now;
                           lastSeen := 0 |}]> (registry w)) w)
  | Some AtSeen =>
      match touch ip now (registry w) with
      | Some clients => Moved (goto i AtAllow clients w)
      | None => Panics
      end
  | Some AtAllow =>
      match consult ip now (registry w) with
      | Some (clients, ok) => Moved (goto i (AtUnlock (verdict ok)) clients w)
      | None => Panics
      end
  | Some (AtUnlock v) =>
      Moved {| mutex := None; registry := registry w; pcs := <[i := Left v]> (pcs w) |}
  | Some (Left _) => Waits
  end.

(** The goroutines take their turns in the order of [schedule]; [None] when
    one of them panics. *)
Fixpoint run (cfg : limiter_config) (req : nat → string * time.Time)
    (schedule : list nat) (w : World) : option World :=
  match schedule with
  | [] => Some w
  | i :: rest =>
      match move cfg (req i).1 (req i).2 i w with
      | Moved w' => run cfg req rest w'
      | Waits => run cfg req rest w
      | Panics => None
      end
  end.

(** [n] requests have arrived and none has run yet. *)
Definition arrivals (n : nat) (clients : gmap string Client) : World :=
  {| mutex := None; registry := clients; pcs := replicate n Arrived |}.

Definition decided (v : Verdict) (pc : Pc) : bool :=
  match pc with
  | AtUnlock v' | Left v' => bool_decide (v' = v)
  | _ => false
  end.

(** How many of the goroutines have got the verdict [v]. *)
Definition tally (v : Verdict) (w : World) : nat :=
  length (filter (λ pc, decided v pc = true) (pcs w)).

Definition has_left (pc : Pc) : Prop :=
  match pc with Left _ => True | _ => False end.

Global Instance has_left_dec pc : Decision (has_left pc).
Proof. destruct pc; simpl; apply _. Defined.

(** Every request has been answered. *)
Definition all_left (w : World) : Prop := Forall has_left (pcs w).

(** Between [mutex.Lock()] and [mutex.Unlock()]. *)
Definition in_section (pc : Pc) : Prop :=
  match pc with
  | Arrived | Left _ => False
  | _ => True
  end.

(** How far a goroutine is from its answer, in statements. *)
Definition distance (pc : Pc) : nat :=
  match pc with
  | Arrived => 6
  | AtLookup => 5
  | AtCreate => 4
  | AtSeen => 3
  | AtAllow => 2
  | AtUnlock _ => 1
  | Left _ => 0
  end.

Definition remaining (w : World) : nat := sum_list (distance <$> pcs w).

(** What holds of every world that [n] simultaneous requests of [ip] reach:
    the goroutine between lock and unlock is the holder of the mutex, the
    statement it stands at agrees with the map, and the bucket of [ip] has
    paid one token for each [Allow]. *)
Record coherent (cfg : limiter_config) (ip : string) (now : time.Time)
    (n : nat) (w : World) : Prop := mkCoherent {
  coh_length : length (pcs w) = n;
  coh_holder : ∀ j pc, pcs w !! j = Some pc → in_section pc → mutex w = Some j;
  coh_held : ∀ j, mutex w = Some j → ∃ pc, pcs w !! j = Some pc ∧ in_section pc;
  coh_create : ∀ j, pcs w !! j = Some AtCreate → registry w !! ip = None;
  coh_entry : ∀ j pc, pcs w !! j = Some pc → pc = AtSeen ∨ pc = AtAllow →
                      is_Some (registry w !! ip);
  coh_tokens :
    (rate.tokens (rate.refill (bucket_of cfg ip now (registry w)) now)
     == inject_Z (burst cfg - Z.of_nat (tally Allow w)))%Q;
  coh_allowed : Z.of_nat (tally Allow w) ≤ burst cfg;
  coh_denied : (0 < tally Deny w)%nat → Z.of_nat (tally Allow w) = burst cfg
}.

(** The addresses of the requests of a run, in order. *)
Definition addresses (events : list Event) : list string :=
  omap (λ e, match e with Request ip _ => Some ip | Sweep _ => None end) events.

(** ** Go's [strings] package, as far as the repository uses it *)

Module gostrings.

(** [strings.Split(s, sep)] for a separator of one byte: the pieces of [s]
    between the separators.  A string without separator is its only piece,
    the empty string included. *)
Fixpoint Split (s : string) (sep : Ascii.ascii) : list string :=
  match s with
  | EmptyString => [EmptyString]
  | String c s' =>
      if Ascii.eqb c sep then EmptyString :: Split s' sep
      else match Split s' sep with
           | piece :: pieces => String c piece :: pieces
           | [] => [String c EmptyString]
           end
  end.

(** [strings.CutPrefix]: [s] without the leading [prefix], if it has it. *)
Fixpoint CutPrefix (s prefix : string) {struct prefix} : option string :=
  match prefix with
  | EmptyString => Some s
  | String p prefix' =>
      match s with
      | String c s' => if Ascii.eqb c p then CutPrefix s' prefix' else None
      | EmptyString => None
      end
  end.

Definition HasPrefix (s prefix : string) : bool :=
  match CutPrefix s prefix with Some _ => true | None => false end.

Definition TrimPrefix (s prefix : string) : string :=
  match CutPrefix s prefix with Some rest => rest | None => s end.

(** The byte [c] occurs in [s]. *)
Fixpoint Contains (s : string) (c : Ascii.ascii) : bool :=
  match s with
  | EmptyString => false
  | String c' s' => Ascii.eqb c' c || Contains s' c
  end.

End gostrings.

(** ** [net/http], as far as the middleware uses it *)

Module http.

(** [http.Header]: the values of each header, under its canonical key (the
    keys the middleware writes are canonical as written). *)
Abbreviation Header := (gmap string (list string)).

Definition Add (key value : string) (h : Header) : Header :=
  <[key := default [] (h !! key) ++ [value]]> h.

Definition Set_ (key value : string) (h : Header) : Header :=
  <[key := [value]]> h.

Definition Get (key : string) (h : Header) : string :=
  match h !! key with
  | Some (value :: _) => value
  | _ => EmptyString
  end.

(** A request, with the values its context carries. *)
Record Request (C : Type) : Type := mkRequest {
  Method : string;
  RequestHeader : Header;
  Context : C
}.

(** What a handler has done to its [http.ResponseWriter]: the header map and
    the status code, once written. *)
Record ResponseWriter : Type := mkResponseWriter {
  ResponseHeader : Header;
  Status : option Z
}.

(** [w.Header().Add], [w.Header().Set] and [w.WriteHeader]; a status that is
    already written stays. *)
Definition HeaderAdd (key value : string) (w : ResponseWriter) : ResponseWriter :=
  {| ResponseHeader := Add key value (ResponseHeader w); Status := Status w |}.

Definition HeaderSet (key value : string) (w : ResponseWriter) : ResponseWriter :=
  {| ResponseHeader := Set_ key value (ResponseHeader w); Status := Status w |}.

Definition WriteHeader (code : Z) (w : ResponseWriter) : ResponseWriter :=
  {| ResponseHeader := ResponseHeader w;
     Status := match Status w with Some c => Some c | None => Some code end |}.

Definition MethodOptions : string := "OPTIONS".
Definition StatusOK : Z := 200.

(** [http.Handler]: what [ServeHTTP(w, r)] leaves of [w]. *)
Definition Handler (C : Type) : Type := ResponseWriter → Request C → ResponseWriter.

End http.

Arguments http.Method {C}.
Arguments http.RequestHeader {C}.
Arguments http.Context {C}.
Arguments http.mkRequest {C}.

(** ** The other middleware of [cmd/api/middleware.go] *)

(** What [GetForToken] returns: the user, [ErrRecordNotFound], or another
    error. *)
Inductive TokenLookup (U E : Type) : Type :=
  | UserFound (user : U)
  | RecordNotFound
  | LookupFailed (err : E).

Arguments UserFound {U E}.
Arguments RecordNotFound {U E}.
Arguments LookupFailed {U E}.

(** The application as the middleware sees it.  The user type, the request
    context helpers, the token check, the models and the error responses live
    in files of the repository that are not at hand; each is a field here. *)
Record application : Type := mkApplication {
  User : Type;
  Error : Type;
  Permissions : Type;
  Ctx : Type;
  trustedOrigins : list string;                       (* config.cors.trustedOrigins *)
  AnonymousUser : User;                               (* data.AnonymousUser *)
  IsAnonymous : User → bool;                          (* user.IsAnonymous() *)
  Activated : User → bool;                            (* user.Activated *)
  ID : User → Z;                                      (* user.ID *)
  Include : Permissions → string → bool;              (* permissions.Include(code) *)
  ScopeAuthentication : string;                       (* data.ScopeAuthentication *)
  TokenPlainTextValid : string → bool;                (* ValidateTokenPlainText, then v.Valid() *)
  GetForToken : string → string → TokenLookup User Error;
  GetAllForUser : Z → Permissions + Error;
  contextSetUser : http.Request Ctx → User → http.Request Ctx;
  contextGetUser : http.Request Ctx → User;
  invalidAuthenticationTokenResponse : http.Handler Ctx;
  serverErrorResponse : Error → http.Handler Ctx;
  authenticationRequiredResponse : http.Handler Ctx;
  inactiveAccountResponse : http.Handler Ctx;
  notPermittedResponse : http.Handler Ctx
}.

(** Lines 122-180. *)
Definition authenticate (app : application) (next : http.Handler (Ctx app))
    : http.Handler (Ctx app) := λ w r,
  let w := http.HeaderAdd "Vary" "Authorization" w in
  let authorizationHeader := http.Get "Authorization" (http.RequestHeader r) in
  if decide (authorizationHeader = EmptyString) then
    next w (contextSetUser app r (AnonymousUser app))
  else
    match gostrings.Split authorizationHeader " "%char with
    | [bearer; token] =>
        if decide (bearer = "Bearer") then
          if TokenPlainTextValid app token then
            match GetForToken app (ScopeAuthentication app) token with
            | UserFound user => next w (contextSetUser app r user)
            | RecordNotFound => invalidAuthenticationTokenResponse app w r
            | LookupFailed err => serverErrorResponse app err w r
            end
          else invalidAuthenticationTokenResponse app w r
        else invalidAuthenticationTokenResponse app w r
    | _ => invalidAuthenticationTokenResponse app w r
    end.

(** Lines 183-197. *)
Definition requireAuthenticatedUser (app : application) (next : http.Handler (Ctx app))
    : http.Handler (Ctx app) := λ w r,
  let user := contextGetUser app r in
  if IsAnonymous app user then authenticationRequiredResponse app w r
  else next w r.

(** Lines 200-218. *)
Definition requireActivatedUser (app : application) (next : http.Handler (Ctx app))
    : http.Handler (Ctx app) :=
  let fn : http.Handler (Ctx app) := λ w r,
    let user := contextGetUser app r in
    if negb (Activated app user) then inactiveAccountResponse app w r
    else next w r in
  requireAuthenticatedUser app fn.

(** Lines 222-248. *)
Definition requirePermission (app : application) (code : string)
    (next : http.Handler (Ctx app)) : http.Handler (Ctx app) :=
  let fn : http.Handler (Ctx app) := λ w r,
    let user := contextGetUser app r in
    match GetAllForUser app (ID app user) with
    | inr err => serverErrorResponse app err w r
    | inl permissions =>
        if negb (Include app permissions code) then notPermittedResponse app w r
        else next w r
    end in
  requireActivatedUser app fn.

(** Lines 264-285: the loop over the trusted origins.  The flag tells
    whether the handler has returned from inside the loop. *)
Fixpoint enableCORS_loop {C : Type} (origins : list string) (origin : string)
    (w : http.ResponseWriter) (r : http.Request C) : http.ResponseWriter * bool :=
  match origins with
  | [] => (w, false)
  | trusted :: rest =>
      if decide (origin = trusted) then
        let w := http.HeaderSet "Access-Control-Allow-Origin" origin w in
        if bool_decide (http.Method r = http.MethodOptions) &&
           negb (bool_decide (http.Get "Access-Control-Request-Method" (http.RequestHeader r)
                              = EmptyString))
        then
          let w := http.HeaderSet "Access-Control-Allow-Methods"
                     "OPTIONS, PUT, PATCH, DELETE" w in
          let w := http.HeaderSet "Access-Control-Allow-Headers"
                     "Authorization, Content-Type" w in
          (http.WriteHeader http.StatusOK w, true)
        else (w, false)
      else enableCORS_loop rest origin w r
  end.

(** Lines 250-290. *)
Definition enableCORS {C : Type} (trusted : list string) (next : http.Handler C)
    : http.Handler C := λ w r,
  let w := http.HeaderAdd "Vary" "Origin" w in
  let w := http.HeaderAdd "Vary" "Access-Control-Request-Method" w in
  let origin := http.Get "Origin" (http.RequestHeader r) in
  if decide (origin = EmptyString) then next w r
  else
    let '(w, returned) := enableCORS_loop trusted origin w r in
    if returned then w else next w r.

(** A preflight request: [OPTIONS] with an [Access-Control-Request-Method]
    header (line 271). *)
Definition is_preflight {C : Type} (r : http.Request C) : bool :=
  bool_decide (http.Method r = http.MethodOptions) &&
  negb (bool_decide (http.Get "Access-Control-Request-Method" (http.RequestHeader r)
                     = EmptyString)).

(** A small application used in the examples: users are an id and a flag,
    user 0 is the anonymous one, the context holds at most one user, the token
    ["letmein"] belongs to user 7, who may read movies, and each error
    response writes its status code. *)
Definition demo_application : application :=
  {| User := Z * bool;
     Error := string;
     Permissions := list string;
     Ctx := option (Z * bool);
     trustedOrigins := ["https://greenlight.example"; "https://admin.example"];
     AnonymousUser := (0, false);
     IsAnonymous := λ u, u.1 =? 0;
     Activated := snd;
     ID := fst;
     Include := λ permissions code, bool_decide (code ∈ permissions);
     ScopeAuthentication := "authentication";
     TokenPlainTextValid := λ token, bool_decide (token ≠ EmptyString);
     GetForToken := λ _ token,
       if bool_decide (token = "letmein") then UserFound (7, true) else RecordNotFound;
     GetAllForUser := λ id, if id =? 7 then inl ["movies:read"] else inl [];
     contextSetUser := λ r user,
       http.mkRequest (http.Method r) (http.RequestHeader r) (Some user);
     contextGetUser := λ r, default (0, false) (http.Context r);
     invalidAuthenticationTokenResponse := λ w _, http.WriteHeader 401 w;
     serverErrorResponse := λ _ w _, http.WriteHeader 500 w;
     authenticationRequiredResponse := λ w _, http.WriteHeader 401 w;
     inactiveAccountResponse := λ w _, http.WriteHeader 403 w;
     notPermittedResponse := λ w _, http.WriteHeader 403 w |}.

Definition blank_response : http.ResponseWriter :=
  {| http.ResponseHeader := ∅; http.Status := None |}.

(** ** Go's integers and [strconv] *)

Module int64.

(** The value an int64 holds after an operation whose exact result is [z]. *)
Definition wrap (z : Z) : Z := (z + 2 ^ 63) mod 2 ^ 64 - 2 ^ 63.

End int64.

Module strconv.

(** [strconv.Itoa(i)], also what [fmt.Sprintf] prints for [%d]: the decimal
    digits of [i], after a minus sign when [i] is negative. *)
Definition Itoa (i : Z) : string :=
  DecimalString.NilZero.string_of_int (Z.to_int i).

(** [strconv.ParseInt(s, 10, bitSize)], with its errors as [None]: an optional
    sign, then one or more decimal digits and nothing else, for a value that a
    signed integer of [bitSize] bits holds. *)
Definition ParseInt (s : string) (bitSize : Z) : option Z :=
  match s with
  | EmptyString => None
  | String c rest =>
      let neg := Ascii.eqb c "-" in
      let digits := if Ascii.eqb c "+" || Ascii.eqb c "-" then rest else s in
      match DecimalString.NilZero.uint_of_string digits with
      | None => None
      | Some d =>
          let un := Z.of_uint d in
          let cutoff := 2 ^ (bitSize - 1) in
          if negb neg && (cutoff <=? un) then None
          else if neg && (cutoff <? un) then None
          else Some (if neg then - un else un)
      end
  end.

End strconv.

(** ** The metrics middleware (lines 292-318) *)

(** The fields of [httpsnoop.Metrics] that the middleware reads. *)
Record Metrics : Type := mkMetrics {
  Code : Z;
  Duration : time.Duration
}.

(** [d.Microseconds()]: an integer division, which truncates. *)
Definition Microseconds (d : time.Duration) : Z := Z.quot d 1000.

(** The four [expvar] variables of the middleware. *)
Record Counters : Type := mkCounters {
  totalRequestsReceived : Z;
  totalResponsesReceived : Z;
  totalProcessingTimeMicroseconds : Z;
  totalResponsesSentByStatus : gmap string Z
}.

(** [expvar.NewInt] and [expvar.NewMap]: zero and empty. *)
Definition new_counters : Counters :=
  {| totalRequestsReceived := 0;
     totalResponsesReceived := 0;
     totalProcessingTimeMicroseconds := 0;
     totalResponsesSentByStatus := ∅ |}.

(** [Add] of an [expvar.Int]: an atomic addition on an int64. *)
Definition Int_Add (v delta : Z) : Z := int64.wrap (v + delta).

(** [Add] of an [expvar.Map]: the variable of the key, made at zero if
    absent, is added to. *)
Definition Map_Add (key : string) (delta : Z) (m : gmap string Z) : gmap string Z :=
  <[key := Int_Add (default 0 (m !! key)) delta]> m.

(** The handler of lines 299-317.  [CaptureMetrics] is [httpsnoop]'s: it
    runs the next handler and reports the status code and the time taken. *)
Definition metrics {C : Type}
    (CaptureMetrics : http.Handler C → http.ResponseWriter → http.Request C
                      → Metrics * http.ResponseWriter)
    (next : http.Handler C) (vars : Counters) (w : http.ResponseWriter)
    (r : http.Request C) : Counters * http.ResponseWriter :=
  let received := Int_Add (totalRequestsReceived vars) 1 in
  let '(m, w') := CaptureMetrics next w r in
  ({| totalRequestsReceived := received;
      totalResponsesReceived := Int_Add (totalResponsesReceived vars) 1;
      totalProcessingTimeMicroseconds :=
        Int_Add (totalProcessingTimeMicroseconds vars) (Microseconds (Duration m));
      totalResponsesSentByStatus :=
        Map_Add (strconv.Itoa (Code m)) 1 (totalResponsesSentByStatus vars) |}, w').

(** The variables after the requests, served one after the other. *)
Fixpoint metrics_serve {C : Type}
    (CaptureMetrics : http.Handler C → http.ResponseWriter → http.Request C
                      → Metrics * http.ResponseWriter)
    (next : http.Handler C) (requests : list (http.ResponseWriter * http.Request C))
    (vars : Counters) : Counters :=
  match requests with
  | [] => vars
  | (w, r) :: rest =>
      metrics_serve CaptureMetrics next rest (metrics CaptureMetrics next vars w r).1
  end.

(** What [CaptureMetrics] reported for each request. *)
Definition captured {C : Type}
    (CaptureMetrics : http.Handler C → http.ResponseWriter → http.Request C
                      → Metrics * http.ResponseWriter)
    (next : http.Handler C) (requests : list (http.ResponseWriter * http.Request C))
    : list Metrics :=
  (λ wr, (CaptureMetrics next wr.1 wr.2).1) <$> requests.

(** How many of the reports carry the status code [code]. *)
Definition responses_with (code : Z) (reports : list Metrics) : Z :=
  Z.of_nat (length (filter (λ m, Code m = code) reports)).

(** The microseconds of all the reports together. *)
Definition microseconds_of (reports : list Metrics) : Z :=
  foldr Z.add 0 ((λ m, Microseconds (Duration m)) <$> reports).

(** A counter of the map after [n] more responses of its status. *)
Definition bumped (n : Z) (v : option Z) : option Z :=
  if n =? 0 then v else Some (int64.wrap (default 0 v + n)).

(** ** [internal/data/runtime.go] *)

(** [Runtime.MarshalJSON]: ["<runtime> mins"], quoted.  [Quote] is
    [strconv.Quote]. *)
Definition MarshalJSON (Quote : string → string) (r : Z) : string :=
  let jsonValue := strconv.Itoa r +:+ " mins" in
  Quote jsonValue.

(** [Runtime.UnmarshalJSON]: the runtime stored in the receiver, or [None]
    for [ErrInvalidRuntimeFormat], which leaves the receiver as it was.
    [Unquote] is [strconv.Unquote], [None] being its error. *)
Definition UnmarshalJSON (Unquote : string → option string) (jsonValue : string)
    : option Z :=
  match Unquote jsonValue with
  | None => None
  | Some unquotedJsonValue =>
      match gostrings.Split unquotedJsonValue " " with
      | [minutes; unit] =>
          if decide (unit = "mins") then strconv.ParseInt minutes 32 else None
      | _ => None
      end
  end.

(** [strconv.Quote] and [strconv.Unquote] on text that has nothing to
    escape (no quote, no backslash, no control character), for the examples:
    the text between two double quotes. *)
Definition quote_mark : Ascii.ascii := "034".

Definition quote_plain (s : string) : string :=
  String quote_mark (s +:+ String quote_mark EmptyString).

Fixpoint unquote_body (s : string) : option string :=
  match s with
  | EmptyString => None
  | String c rest =>
      if Ascii.eqb c quote_mark
      then (if decide (rest = EmptyString) then Some EmptyString else None)
      else if Ascii.eqb c "\" then None
      else String c <$> unquote_body rest
  end.

Definition unquote_plain (s : string) : option string :=
  match s with
  | String c rest => if Ascii.eqb c quote_mark then unquote_body rest else None
  | EmptyString => None
  end.

(** ** The filters of [internal/data] *)

Record Filters : Type := mkFilters {
  Page : Z;
  PageSize : Z;
  Sort : string;
  SortSafelist : list string
}.

(** [ValidateFilters].  The validator is in a package that is not at hand:
    [Check] is its method ([v.Check(ok, key, message)]) and [In] is
    [validator.In]. *)
Definition ValidateFilters {V : Type} (Check : bool → string → string → V → V)
    (In : string → list string → bool) (v : V) (filters : Filters) : V :=
  let v := Check (0 <? Page filters) "page" "must be greater than zero" v in
  let v := Check (Page filters <=? 10000000) "page" "must be a maximum of 10 million" v in
  let v := Check (0 <? PageSize filters) "page_size" "must be greater than zero" v in
  let v := Check (PageSize filters <=? 100) "page_size" " must be a maximum of 100" v in
  Check (In (Sort filters) (SortSafelist filters)) "sort" "invalid sort value" v.

(** The loop of [sortColumn]; [None] when it ends without a match. *)
Fixpoint sortColumn_loop (sort : string) (safelist : list string) : option string :=
  match safelist with
  | [] => None
  | safeValue :: rest =>
      if decide (sort = safeValue) then Some (gostrings.TrimPrefix sort "-")
      else sortColumn_loop sort rest
  end.

(** [sortColumn]; [None] is the panic ["unsafe sort parameter"]. *)
Definition sortColumn (f : Filters) : option string :=
  sortColumn_loop (Sort f) (SortSafelist f).

Definition sortDirection (f : Filters) : string :=
  if gostrings.HasPrefix (Sort f) "-" then "DESC" else "ASC".

Definition limit (f : Filters) : Z := PageSize f.

(** [(f.Page - 1) * f.PageSize] on Go's 64-bit [int]. *)
Definition offset (f : Filters) : Z :=
  int64.wrap (int64.wrap (Page f - 1) * PageSize f).

(** A validator for the examples: the failed checks, latest first; valid
    when there is none. *)
Definition demo_Check (ok : bool) (key message : string)
    (v : list (string * string)) : list (string * string) :=
  if ok then v else (key, message) :: v.

Definition demo_Valid (v : list (string * string)) : bool :=
  bool_decide (v = []).

Definition demo_In (value : string) (safelist : list string) : bool :=
  bool_decide (value ∈ safelist).

Definition demo_filters : Filters :=
  {| Page := 3; PageSize := 20; Sort := "-year";
     SortSafelist := ["id"; "title"; "year"; "runtime"; "-id"; "-title"; "-year"; "-runtime"] |}.

(** * Properties *)

(** ** The handler in closed form *)

Lemma critical_section_closed cfg ip now (clients : gmap string Client) :
  critical_section cfg ip now clients =
  Some (<[ip := {| limiter := (rate.Allow (bucket_of cfg ip now clients) now).1;
                   lastSeen := now |}]> clients,
        verdict (rate.Allow (bucket_of cfg ip now clients) now).2).
Proof.
  unfold critical_section, touch, consult, ensure_client, bucket_of.
  destruct (clients !! ip) as [c|] eqn:Hc; simpl.
  - rewrite Hc; simpl. rewrite lookup_insert_eq; simpl.
    destruct (rate.Allow (limiter c) now) as [lim ok]; simpl.
    by rewrite insert_insert_eq.
  - rewrite lookup_insert_eq; simpl. rewrite lookup_insert_eq; simpl.
    destruct (rate.Allow _ now) as [lim ok]; simpl.
    by rewrite !insert_insert_eq.
Qed.

Lemma rateLimit_closed cfg ip now (clients : gmap string Client) :
  rateLimit cfg ip now clients =
  Some (if enabled cfg
        then (<[ip := {| limiter := (rate.Allow (bucket_of cfg ip now clients) now).1;
                         lastSeen := now |}]> clients,
              verdict (rate.Allow (bucket_of cfg ip now clients) now).2)
        else (clients, Allow)).
Proof.
  unfold rateLimit. destruct (enabled cfg); [apply critical_section_closed | done].
Qed.

(** ** The token bucket *)

Section bucket.

Local Open Scope Q_scope.

Implicit Types (lim : rate.Limiter) (now : time.Time).

Lemma Qle_bool_true a b : Qle_bool a b = true ↔ a <= b.
Proof. apply Qle_bool_iff. Qed.

Lemma Qle_bool_false a b : Qle_bool a b = false ↔ b < a.
Proof.
  rewrite <- not_true_iff_false, Qle_bool_iff. split.
  - apply Qnot_le_lt.
  - intros H1 H2. apply (Qlt_not_le _ _ H1 H2).
Qed.

Ltac case_Qle :=
  match goal with
  | |- context [Qle_bool ?a ?b] =>
      let E := fresh "E" in
      destruct (Qle_bool a b) eqn:E;
      [apply Qle_bool_true in E | apply Qle_bool_false in E]
  end.

(** [lra] after naming the injected integers and the refill products. *)
Ltac qlra :=
  repeat match goal with
    | H : context [time.Seconds ?d * ?r] |- _ =>
        let x := fresh "x" in set (x := time.Seconds d * r) in *; clearbody x
    | |- context [time.Seconds ?d * ?r] =>
        let x := fresh "x" in set (x := time.Seconds d * r) in *; clearbody x
    | H : context [inject_Z ?z] |- _ =>
        let x := fresh "x" in set (x := inject_Z z) in *; clearbody x
    | |- context [inject_Z ?z] =>
        let x := fresh "x" in set (x := inject_Z z) in *; clearbody x
    end;
  lra.

Lemma Seconds_nonneg (d : time.Duration) : (0 <= d)%Z → 0 <= time.Seconds d.
Proof. intros Hd. unfold time.Seconds, Qle. simpl. lia. Qed.

Lemma Seconds_zero_mult (r : Q) : time.Seconds 0%Z * r == 0.
Proof. unfold time.Seconds, Qeq. simpl. lia. Qed.

Lemma refill_capacity lim now :
  rate.capacity (rate.refill lim now) = rate.capacity lim.
Proof. reflexivity. Qed.

Lemma refill_tokens_le_capacity lim now :
  rate.tokens (rate.refill lim now) <= inject_Z (rate.capacity lim).
Proof. unfold rate.refill; simpl. case_Qle; qlra. Qed.

Lemma refill_same_instant lim now :
  rate.lastRefillInstant lim = now →
  rate.tokens lim <= inject_Z (rate.capacity lim) →
  rate.tokens (rate.refill lim now) == rate.tokens lim.
Proof.
  intros <- Hcap. unfold rate.refill; simpl.
  rewrite Z.sub_diag.
  pose proof (Seconds_zero_mult (rate.refillRatePerSecond lim)) as H0.
  case_Qle; qlra.
Qed.

Lemma refill_tokens_nonneg lim now :
  (0 ≤ rate.capacity lim)%Z →
  0 <= rate.tokens lim → 0 <= rate.refillRatePerSecond lim →
  (rate.lastRefillInstant lim ≤ now)%Z →
  0 <= rate.tokens (rate.refill lim now).
Proof.
  intros Hc Ht Hr Hnow. unfold rate.refill; simpl.
  assert (0 <= inject_Z (rate.capacity lim)) as Hc' by (unfold Qle; simpl; lia).
  assert (0 <= time.Seconds (now - rate.lastRefillInstant lim)%Z
               * rate.refillRatePerSecond lim) as He.
  { apply Qmult_le_0_compat; [apply Seconds_nonneg; lia | done]. }
  case_Qle; qlra.
Qed.

Lemma Allow_capacity lim now :
  rate.capacity (rate.Allow lim now).1 = rate.capacity lim.
Proof. unfold rate.Allow. case_Qle; reflexivity. Qed.

Lemma Allow_rate lim now :
  rate.refillRatePerSecond (rate.Allow lim now).1 = rate.refillRatePerSecond lim.
Proof. unfold rate.Allow. case_Qle; reflexivity. Qed.

Lemma Allow_instant lim now :
  rate.lastRefillInstant (rate.Allow lim now).1 = now.
Proof. unfold rate.Allow. case_Qle; reflexivity. Qed.

Lemma Allow_granted lim now :
  (rate.Allow lim now).2 = true ↔ 1 <= rate.tokens (rate.refill lim now).
Proof.
  unfold rate.Allow. generalize (rate.refill lim now); intros lim'.
  case_Qle; cbn [snd]; split; intros; try done; qlra.
Qed.

Lemma Allow_refused lim now :
  (rate.Allow lim now).2 = false ↔ rate.tokens (rate.refill lim now) < 1.
Proof.
  unfold rate.Allow. generalize (rate.refill lim now); intros lim'.
  case_Qle; cbn [snd]; split; intros; try done; qlra.
Qed.

Lemma Allow_tokens lim now :
  rate.tokens (rate.Allow lim now).1 ==
  rate.tokens (rate.refill lim now) - (if (rate.Allow lim now).2 then 1 else 0).
Proof.
  unfold rate.Allow. generalize (rate.refill lim now); intros lim'.
  case_Qle; cbn [fst snd rate.tokens]; qlra.
Qed.

(** The bounds of the data model are kept by every check. *)
Lemma Allow_bounds lim now :
  (0 ≤ rate.capacity lim)%Z →
  0 <= rate.tokens lim → 0 <= rate.refillRatePerSecond lim →
  (rate.lastRefillInstant lim ≤ now)%Z →
  0 <= rate.tokens (rate.Allow lim now).1 <= inject_Z (rate.capacity lim).
Proof.
  intros Hc Ht Hr Hnow.
  pose proof (refill_tokens_nonneg lim now Hc Ht Hr Hnow) as H0.
  pose proof (refill_tokens_le_capacity lim now) as H1.
  pose proof (Allow_tokens lim now) as H2.
  destruct ((rate.Allow lim now).2) eqn:E.
  - apply Allow_granted in E. qlra.
  - qlra.
Qed.

(** [n] checks at one instant, on a bucket that holds between [k] and
    [k + 1] tokens once refilled: the first [k] pass. *)
Lemma drain_verdicts now n : ∀ lim (k : nat),
  inject_Z (Z.of_nat k) <= rate.tokens (rate.refill lim now) →
  rate.tokens (rate.refill lim now) < inject_Z (Z.of_nat k) + 1 →
  (drain lim now n).2 = replicate (n `min` k) true ++ replicate (n - k) false.
Proof.
  induction n as [|n IH]; intros lim k Hlo Hhi; [done|].
  cbn [drain].
  pose proof (Allow_tokens lim now) as Htok.
  pose proof (Allow_instant lim now) as Hinst.
  pose proof (Allow_capacity lim now) as Hcap.
  pose proof (Allow_granted lim now) as Hyes.
  pose proof (Allow_refused lim now) as Hno.
  pose proof (refill_tokens_le_capacity lim now) as Hle.
  destruct (rate.Allow lim now) as [lim1 ok]; cbn [fst snd] in *.
  assert (rate.tokens (rate.refill lim1 now) == rate.tokens lim1) as Hsame.
  { apply refill_same_instant; [done|]. rewrite Hcap. destruct ok; qlra. }
  destruct ok.
  - destruct Hyes as [Hyes _]. specialize (Hyes eq_refl).
    destruct k as [|k].
    { change (inject_Z (Z.of_nat 0)) with 0 in Hhi. qlra. }
    rewrite Nat2Z.inj_succ, <- Z.add_1_r, inject_Z_plus in Hlo, Hhi.
    change (inject_Z 1) with 1 in Hlo, Hhi.
    specialize (IH lim1 k ltac:(qlra) ltac:(qlra)).
    destruct (drain lim1 now n) as [lim2 oks]; cbn [fst snd] in *.
    by rewrite IH.
  - destruct Hno as [Hno _]. specialize (Hno eq_refl).
    destruct k as [|k].
    + specialize (IH lim1 0%nat ltac:(qlra) ltac:(qlra)).
      destruct (drain lim1 now n) as [lim2 oks]; cbn [fst snd] in *.
      rewrite IH. by rewrite Nat.min_0_r, Nat.sub_0_r.
    + rewrite Nat2Z.inj_succ, <- Z.add_1_r, inject_Z_plus in Hlo.
      change (inject_Z 1) with 1 in Hlo.
      assert (0 <= inject_Z (Z.of_nat k)) by (unfold Qle; simpl; lia).
      qlra.
Qed.

End bucket.

(** ** Runs against the registry *)

Section registry.

Implicit Types (cfg : limiter_config) (ip : string) (now : time.Time).
Implicit Types (clients : gmap string Client) (events : list Event).

Lemma bucket_of_insert cfg ip now clients c :
  bucket_of cfg ip now (<[ip := c]> clients) = limiter c.
Proof. unfold bucket_of. by rewrite lookup_insert_eq. Qed.

Lemma serve_request cfg ip now events clients :
  enabled cfg = true →
  serve cfg (Request ip now :: events) clients =
  '(final, log) ←
    serve cfg events
      (<[ip := {| limiter := (rate.Allow (bucket_of cfg ip now clients) now).1;
                  lastSeen := now |}]> clients);
  Some (final, (ip, verdict (rate.Allow (bucket_of cfg ip now clients) now).2) :: log).
Proof. intros Hen. cbn [serve]. by rewrite rateLimit_closed, Hen. Qed.

(** A run never panics. *)
Lemma serve_total cfg events : ∀ clients, is_Some (serve cfg events clients).
Proof.
  induction events as [|[ip now|clock] events IH]; intros clients; cbn [serve].
  - done.
  - rewrite rateLimit_closed; simpl.
    destruct (enabled cfg); simpl.
    + destruct (IH (<[ip := {| limiter := (rate.Allow (bucket_of cfg ip now clients) now).1;
                              lastSeen := now |}]> clients)) as [[final log] ->].
      done.
    + destruct (IH clients) as [[final log] ->]. done.
  - apply IH.
Qed.

(** A burst of one client is a burst on its bucket. *)
Lemma serve_burst cfg ip now n : ∀ clients,
  enabled cfg = true →
  ∃ final,
    serve cfg (replicate n (Request ip now)) clients =
    Some (final, (λ ok, (ip, verdict ok)) <$> (drain (bucket_of cfg ip now clients) now n).2).
Proof.
  induction n as [|n IH]; intros clients Hen.
  - by exists clients.
  - cbn [replicate drain]. rewrite serve_request by done.
    destruct (rate.Allow (bucket_of cfg ip now clients) now) as [lim1 ok] eqn:HA.
    cbn [fst snd].
    destruct (IH (<[ip := {| limiter := lim1; lastSeen := now |}]> clients) Hen)
      as [final ->].
    rewrite bucket_of_insert. cbn [limiter].
    destruct (drain lim1 now n) as [lim2 oks]. by exists final.
Qed.

Lemma fmap_verdicts ip (a d : nat) :
  (λ ok, (ip, verdict ok)) <$> (replicate a true ++ replicate d false) =
  replicate a (ip, Allow) ++ replicate d (ip, Deny).
Proof. by rewrite fmap_app, !fmap_replicate. Qed.

(** A client not yet in the registry: of [n] requests at one instant the
    first [burst] pass. *)
Lemma serve_fresh_burst cfg ip now clients n :
  enabled cfg = true →
  0 ≤ burst cfg →
  clients !! ip = None →
  ∃ final,
    serve cfg (replicate n (Request ip now)) clients =
    Some (final, replicate (n `min` Z.to_nat (burst cfg)) (ip, Allow)
                 ++ replicate (n - Z.to_nat (burst cfg)) (ip, Deny)).
Proof.
  intros Hen HB Hnew.
  destruct (serve_burst cfg ip now n clients Hen) as [final ->].
  exists final. f_equal. f_equal.
  rewrite <- fmap_verdicts. f_equal.
  assert (rate.tokens (rate.refill (bucket_of cfg ip now clients) now)
          == inject_Z (burst cfg))%Q as Hfull.
  { unfold bucket_of. rewrite Hnew.
    rewrite refill_same_instant; [done | done |]. apply Qle_refl. }
  apply drain_verdicts; rewrite Hfull, Z2Nat.id by done.
  - apply Qle_refl.
  - rewrite <- (Qplus_0_r (inject_Z (burst cfg))) at 1.
    apply Qplus_lt_r. reflexivity.
Qed.

Lemma serve_fresh_burst_succ cfg ip now clients :
  enabled cfg = true →
  0 ≤ burst cfg →
  clients !! ip = None →
  ∃ final,
    serve cfg (replicate (Z.to_nat (burst cfg) + 1) (Request ip now)) clients =
    Some (final, replicate (Z.to_nat (burst cfg)) (ip, Allow) ++ [(ip, Deny)]).
Proof.
  intros Hen HB Hnew.
  destruct (serve_fresh_burst cfg ip now clients (Z.to_nat (burst cfg) + 1) Hen HB Hnew)
    as [final Hrun].
  exists final. rewrite Hrun. f_equal. f_equal.
  replace (Z.to_nat (burst cfg) + 1 - Z.to_nat (burst cfg))%nat with 1%nat by lia.
  by rewrite Nat.min_r by lia.
Qed.

End registry.

(** ** The claims *)

(** C1.  A client seen for the first time, with a burst of [B >= 0]: of [n]
    requests sent at one instant the first [B] are let through and every later
    one is refused; in particular [B + 1] requests give [B] times [Allow] and
    then [Deny]. *)
Theorem fresh_bucket_burst (cfg : limiter_config) (ip : string) (now : time.Time)
    (clients : gmap string Client) (n : nat) :
  enabled cfg = true →
  0 ≤ burst cfg →
  clients !! ip = None →
  (∃ final,
     serve cfg (replicate n (Request ip now)) clients =
     Some (final, replicate (n `min` Z.to_nat (burst cfg)) (ip, Allow)
                  ++ replicate (n - Z.to_nat (burst cfg)) (ip, Deny))) ∧
  (∃ final,
     serve cfg (replicate (Z.to_nat (burst cfg) + 1) (Request ip now)) clients =
     Some (final, replicate (Z.to_nat (burst cfg)) (ip, Allow) ++ [(ip, Deny)])).
Proof.
  intros Hen HB Hnew. split.
  - by apply serve_fresh_burst.
  - by apply serve_fresh_burst_succ.
Qed.

Lemma fresh_bucket_burst_witness :
  (∃ final,
     serve default_limiter_config (replicate 7 (Request "192.0.2.1" 5)) ∅ =
     Some (final, replicate (7 `min` Z.to_nat (burst default_limiter_config))
                    ("192.0.2.1", Allow)
                  ++ replicate (7 - Z.to_nat (burst default_limiter_config))
                       ("192.0.2.1", Deny))) ∧
  (∃ final,
     serve default_limiter_config
       (replicate (Z.to_nat (burst default_limiter_config) + 1) (Request "192.0.2.1" 5)) ∅ =
     Some (final, replicate (Z.to_nat (burst default_limiter_config)) ("192.0.2.1", Allow)
                  ++ [("192.0.2.1", Deny)])).
Proof.
  apply (fresh_bucket_burst default_limiter_config "192.0.2.1" 5 ∅ 7);
    [reflexivity | simpl; lia | reflexivity].
Defined.

(** The scenario of the defaults: burst 4 at 2 tokens a second.  Five requests
    at once, a sixth half a second later. *)
Example scenario_default :
  snd <$> serve default_limiter_config
    (replicate 5 (Request "192.0.2.1" 0) ++ [Request "192.0.2.1" 500000000]) ∅ =
  Some [("192.0.2.1", Allow); ("192.0.2.1", Allow); ("192.0.2.1", Allow);
        ("192.0.2.1", Allow); ("192.0.2.1", Deny); ("192.0.2.1", Allow)].
Proof. vm_compute. reflexivity. Qed.

(** C7.  With the limiter switched off the handler lets every request
    through and hands the registry back as it found it, whatever the buckets
    hold; over a whole run every verdict is [Allow]. *)
Theorem disabled_allows_all (cfg : limiter_config) :
  enabled cfg = false →
  (∀ ip now (clients : gmap string Client),
     rateLimit cfg ip now clients = Some (clients, Allow)) ∧
  (∀ events (clients : gmap string Client),
     ∃ final log, serve cfg events clients = Some (final, log) ∧
                  Forall (λ entry, entry.2 = Allow) log).
Proof.
  intros Hoff.
  assert (∀ ip now (clients : gmap string Client),
            rateLimit cfg ip now clients = Some (clients, Allow)) as Hone.
  { intros ip now clients. unfold rateLimit. by rewrite Hoff. }
  split; [done|].
  induction events as [|[ip now|clock] events IH]; intros clients; cbn [serve].
  - by exists clients, [].
  - rewrite Hone; simpl. destruct (IH clients) as (final & log & -> & Hall).
    exists final, ((ip, Allow) :: log). split; [done|]. by constructor.
  - apply IH.
Qed.

Lemma disabled_allows_all_witness :
  rateLimit (parse_limiter_flags 2 4 false) "192.0.2.1" 7 spent_registry
  = Some (spent_registry, Allow).
Proof.
  apply (proj1 (disabled_allows_all (parse_limiter_flags 2 4 false) eq_refl)).
Defined.

Example enabled_refuses_spent :
  snd <$> rateLimit (parse_limiter_flags 2 4 true) "192.0.2.1" 7 spent_registry
  = Some Deny.
Proof. vm_compute. reflexivity. Qed.

(** C9.  The handler returns for every address, the empty one included; a
    request whose address resolved to the empty string is served from the
    entry stored under that one key, and is limited like any other: of
    [burst + 1] such requests at one instant the last is refused. *)
Theorem empty_identity_is_limited (cfg : limiter_config) (now : time.Time)
    (clients : gmap string Client) :
  (∀ ip, is_Some (rateLimit cfg ip now clients)) ∧
  rateLimit cfg "" now clients =
    Some (if enabled cfg
          then (<["" := {| limiter := (rate.Allow (bucket_of cfg "" now clients) now).1;
                           lastSeen := now |}]> clients,
                verdict (rate.Allow (bucket_of cfg "" now clients) now).2)
          else (clients, Allow)) ∧
  (enabled cfg = true → 0 ≤ burst cfg → clients !! "" = None →
   ∃ final,
     serve cfg (replicate (Z.to_nat (burst cfg) + 1) (Request "" now)) clients =
     Some (final, replicate (Z.to_nat (burst cfg)) ("", Allow) ++ [("", Deny)])).
Proof.
  split; [|split].
  - intros ip. rewrite rateLimit_closed. done.
  - apply rateLimit_closed.
  - apply serve_fresh_burst_succ.
Qed.

Lemma empty_identity_is_limited_witness :
  ∃ final,
    serve default_limiter_config (replicate 5 (Request "" 0)) ∅ =
    Some (final, replicate 4 ("", Allow) ++ [("", Deny)]).
Proof.
  apply (proj2 (proj2 (empty_identity_is_limited default_limiter_config 0 ∅)));
    [reflexivity | simpl; lia | reflexivity].
Defined.

(** ** Invariants of the registry *)

Section invariants.

Implicit Types (cfg : limiter_config) (ip : string) (now : time.Time).
Implicit Types (clients : gmap string Client) (events : list Event).

Lemma sweep_lookup clock clients ip :
  sweep clock clients !! ip =
  c ← clients !! ip; if decide (stale (clock ip) c) then None else Some c.
Proof.
  unfold sweep. destruct (clients !! ip) as [c|] eqn:Hc; simpl.
  - destruct (decide (stale (clock ip) c)) as [Hs|Hs].
    + apply map_lookup_filter_None. right. intros c' Hc'. simpl.
      rewrite Hc in Hc'. injection Hc' as <-. tauto.
    + apply map_lookup_filter_Some. done.
  - apply map_lookup_filter_None. by left.
Qed.

Lemma sweep_Forall (P : string → Client → Prop) clock clients :
  map_Forall P clients → map_Forall P (sweep clock clients).
Proof.
  intros HP ip c Hc. rewrite sweep_lookup in Hc.
  destruct (clients !! ip) as [c'|] eqn:Hc'; simpl in Hc; [|done].
  destruct (decide _); [done|]. injection Hc as <-. by apply HP.
Qed.

(** A property of the entries that new clients have and checks keep is kept
    by whole runs. *)
Lemma serve_Forall cfg (P : time.Time → Client → Prop) events :
  (∀ t t' c, t ≤ t' → P t c → P t' c) →
  (∀ t now lim, t ≤ now →
     (lim = rate.NewLimiter (rps cfg) (burst cfg) now ∨
      ∃ seen, P t {| limiter := lim; lastSeen := seen |}) →
     P now {| limiter := (rate.Allow lim now).1; lastSeen := now |}) →
  ∀ t clients,
    chronological t events →
    map_Forall (λ _, P t) clients →
    ∃ t' final log, serve cfg events clients = Some (final, log) ∧
                    map_Forall (λ _, P t') final.
Proof.
  intros Hmono Hstep.
  induction events as [|[ip now|clock] events IH]; intros t clients Hchr HP;
    cbn [serve chronological] in *.
  - by exists t, clients, [].
  - destruct Hchr as [Hle Hchr]. rewrite rateLimit_closed; simpl.
    destruct (enabled cfg).
    + destruct (IH now
        (<[ip := {| limiter := (rate.Allow (bucket_of cfg ip now clients) now).1;
                    lastSeen := now |}]> clients) Hchr)
        as (t' & final & log & -> & Hfin).
      { apply map_Forall_insert_2.
        - apply (Hstep t); [done|]. unfold bucket_of.
          destruct (clients !! ip) as [[lim seen]|] eqn:Hc; [right|by left].
          exists seen. by apply (HP ip).
        - intros ip' c Hc. apply (Hmono t); [done|]. by apply (HP ip'). }
      by exists t', final, ((ip, verdict (rate.Allow (bucket_of cfg ip now clients) now).2) :: log).
    + destruct (IH now clients Hchr) as (t' & final & log & -> & Hfin).
      { intros ip' c Hc. apply (Hmono t); [done|]. by apply (HP ip'). }
      by exists t', final, ((ip, Allow) :: log).
  - apply (IH t); [done|]. by apply sweep_Forall.
Qed.

Lemma in_bounds_later t t' c : t ≤ t' → in_bounds t c → in_bounds t' c.
Proof. unfold in_bounds. intros Hle (?&?&?&?&?). repeat split; try done. lia. Qed.

Lemma in_bounds_new (r : Q) (b : Z) now :
  (0 <= r)%Q → 0 ≤ b →
  in_bounds now {| limiter := rate.NewLimiter r b now; lastSeen := 0 |}.
Proof.
  intros Hr Hb. unfold in_bounds; simpl. repeat split; try done.
  - unfold Qle; simpl; lia.
  - apply Qle_refl.
Qed.

Lemma in_bounds_Allow t now lim seen seen' :
  t ≤ now →
  in_bounds t {| limiter := lim; lastSeen := seen |} →
  in_bounds now {| limiter := (rate.Allow lim now).1; lastSeen := seen' |}.
Proof.
  unfold in_bounds; cbn [limiter]. intros Hle (H0 & H1 & Hc & Hr & Ht).
  rewrite Allow_capacity, Allow_rate, Allow_instant.
  destruct (Allow_bounds lim now Hc H0 Hr) as [Hlo Hhi]; [lia|].
  repeat split; try done.
Qed.

End invariants.

(** C3.  From the empty registry the server starts with, under a
    configuration with a refill rate and a burst that are not negative and a
    clock that does not run backwards, every bucket of the registry holds
    between 0 and its capacity tokens after every run, however long the
    pauses between the requests. *)
Theorem tokens_within_capacity (cfg : limiter_config) (t0 : time.Time)
    (events : list Event) :
  (0 <= rps cfg)%Q →
  0 ≤ burst cfg →
  chronological t0 events →
  ∃ final log,
    serve cfg events ∅ = Some (final, log) ∧
    map_Forall (λ _ c,
      (0 <= rate.tokens (limiter c))%Q ∧
      (rate.tokens (limiter c) <= inject_Z (rate.capacity (limiter c)))%Q) final.
Proof.
  intros Hr Hb Hchr.
  destruct (serve_Forall cfg in_bounds events in_bounds_later) with (t := t0)
    (clients := (∅ : gmap string Client)) as (t' & final & log & Hrun & Hfin).
  - intros t now lim Hle [->|[seen Hlim]].
    + apply (in_bounds_Allow now now _ 0); [lia|]. by apply in_bounds_new.
    + by apply (in_bounds_Allow t now lim seen).
  - done.
  - apply map_Forall_empty.
  - exists final, log. split; [done|].
    intros ip c Hc. destruct (Hfin ip c Hc) as (H0 & H1 & _). done.
Qed.

Lemma tokens_within_capacity_witness :
  ∃ final log,
    serve default_limiter_config
      [Request "192.0.2.1" 0; Request "192.0.2.1" 1; Request "198.51.100.7" 1;
       Sweep (λ _, 200000000000); Request "192.0.2.1" 900000000000] ∅
    = Some (final, log) ∧
    map_Forall (λ _ c,
      (0 <= rate.tokens (limiter c))%Q ∧
      (rate.tokens (limiter c) <= inject_Z (rate.capacity (limiter c)))%Q) final.
Proof.
  apply (tokens_within_capacity default_limiter_config 0).
  - vm_compute. discriminate.
  - simpl. lia.
  - simpl. lia.
Defined.

(** The cap after a long pause: ten seconds after the burst of the scenario
    the bucket holds its capacity less the token of that check, not more. *)
Example scenario_capped :
  (λ r, rate.tokens ∘ limiter <$> r.1 !! "192.0.2.1") <$>
    serve default_limiter_config
      (replicate 5 (Request "192.0.2.1" 0) ++ [Request "192.0.2.1" 10000000000]) ∅
  = Some (Some 3%Q).
Proof. vm_compute. reflexivity. Qed.

(** C10.  [flag.IntVar] stores a burst of 0 as it is given; with it, and the
    limiter on, every request of every run is refused, the first request of a
    client never seen before included. *)
Theorem zero_burst_denies_all (limiter_rps : Q) (events : list Event) :
  burst (parse_limiter_flags limiter_rps 0 true) = 0 ∧
  ∃ final log,
    serve (parse_limiter_flags limiter_rps 0 true) events ∅ = Some (final, log) ∧
    Forall (λ entry, entry.2 = Deny) log.
Proof.
  split; [done|].
  set (cfg := parse_limiter_flags limiter_rps 0 true).
  assert (∀ clients : gmap string Client,
            map_Forall (λ _ c, rate.capacity (limiter c) ≤ 0) clients →
            ∃ final log, serve cfg events clients = Some (final, log) ∧
                         Forall (λ entry, entry.2 = Deny) log) as Hgen.
  { induction events as [|[ip now|clock] events IH]; intros clients Hcap.
    - by exists clients, [].
    - rewrite serve_request by done.
      assert (rate.capacity (bucket_of cfg ip now clients) ≤ 0) as Hb.
      { unfold bucket_of. destruct (clients !! ip) as [c|] eqn:Hc; [|done].
        by apply (Hcap ip). }
      assert ((rate.Allow (bucket_of cfg ip now clients) now).2 = false) as Hno.
      { apply Allow_refused.
        eapply Qle_lt_trans; [apply refill_tokens_le_capacity|].
        unfold Qlt; simpl. lia. }
      destruct (IH (<[ip := {| limiter := (rate.Allow (bucket_of cfg ip now clients) now).1;
                                lastSeen := now |}]> clients))
        as (final & log & -> & Hall).
      { apply map_Forall_insert_2; [|done]. cbn [limiter].
        by rewrite Allow_capacity. }
      exists final, ((ip, Deny) :: log). rewrite Hno. split; [done|].
      by constructor.
    - cbn [serve]. apply IH. by apply sweep_Forall. }
  apply Hgen, map_Forall_empty.
Qed.

Example zero_burst_first_request :
  snd <$> rateLimit (parse_limiter_flags 2 0 true) "192.0.2.1" 0 ∅ = Some Deny.
Proof. vm_compute. reflexivity. Qed.

(** ** Independence of the entries *)

Section frame.

Implicit Types (cfg : limiter_config) (ip : string) (now : time.Time).
Implicit Types (clients : gmap string Client) (events : list Event).

Lemma rateLimit_outcome cfg ip now clients :
  rateLimit cfg ip now clients = Some (outcome cfg ip now clients).
Proof. apply rateLimit_closed. Qed.

Lemma serve_cons_request cfg ip now events clients :
  serve cfg (Request ip now :: events) clients =
  '(final, log) ← serve cfg events (outcome cfg ip now clients).1;
  Some (final, (ip, (outcome cfg ip now clients).2) :: log).
Proof.
  cbn [serve]. rewrite rateLimit_outcome.
  by destruct (outcome cfg ip now clients).
Qed.

Lemma outcome_other cfg ip ip' now clients :
  ip ≠ ip' → (outcome cfg ip now clients).1 !! ip' = clients !! ip'.
Proof.
  intros Hne. unfold outcome. destruct (enabled cfg); [|done].
  by apply lookup_insert_ne.
Qed.

Lemma outcome_same cfg ip now clients1 clients2 :
  clients1 !! ip = clients2 !! ip →
  (outcome cfg ip now clients1).1 !! ip = (outcome cfg ip now clients2).1 !! ip ∧
  (outcome cfg ip now clients1).2 = (outcome cfg ip now clients2).2.
Proof.
  intros Heq. unfold outcome, bucket_of. rewrite Heq.
  destruct (enabled cfg); [|done]. cbn [fst snd].
  by rewrite !lookup_insert_eq.
Qed.

Lemma verdicts_of_cons ip ip' v log :
  verdicts_of ip ((ip', v) :: log) =
  if decide (ip' = ip) then v :: verdicts_of ip log else verdicts_of ip log.
Proof.
  unfold verdicts_of. rewrite filter_cons. cbn [fst].
  by destruct (decide (ip' = ip)).
Qed.

(** The verdicts given to [ip] and what the registry keeps for it depend on
    the entry of [ip] alone. *)
Lemma serve_same_entry cfg ip events : ∀ clients1 clients2,
  clients1 !! ip = clients2 !! ip →
  ∃ final1 log1 final2 log2,
    serve cfg events clients1 = Some (final1, log1) ∧
    serve cfg events clients2 = Some (final2, log2) ∧
    verdicts_of ip log1 = verdicts_of ip log2 ∧
    final1 !! ip = final2 !! ip.
Proof.
  induction events as [|[ip' now|clock] events IH]; intros clients1 clients2 Heq.
  - by exists clients1, [], clients2, [].
  - rewrite !serve_cons_request.
    assert ((outcome cfg ip' now clients1).1 !! ip = (outcome cfg ip' now clients2).1 !! ip
            ∧ (ip' = ip → (outcome cfg ip' now clients1).2 = (outcome cfg ip' now clients2).2))
      as [Hnext Hv].
    { destruct (decide (ip' = ip)) as [->|Hne].
      - destruct (outcome_same cfg ip now clients1 clients2 Heq). done.
      - rewrite !outcome_other by done. done. }
    destruct (IH _ _ Hnext) as (final1 & log1 & final2 & log2 & -> & -> & Hlog & Hfin).
    eexists _, _, _, _. repeat split; [|done]. cbn [mbind option_bind].
    rewrite !verdicts_of_cons. destruct (decide (ip' = ip)) as [e|]; [|done].
    by rewrite Hlog, (Hv e).
  - cbn [serve]. apply IH. by rewrite !sweep_lookup, Heq.
Qed.

(** Dropping the requests of another client changes neither. *)
Lemma serve_without cfg ip other events : ∀ clients1 clients2,
  other ≠ ip →
  clients1 !! ip = clients2 !! ip →
  ∃ final1 log1 final2 log2,
    serve cfg events clients1 = Some (final1, log1) ∧
    serve cfg (without other events) clients2 = Some (final2, log2) ∧
    verdicts_of ip log1 = verdicts_of ip log2 ∧
    final1 !! ip = final2 !! ip.
Proof.
  intros clients1 clients2 Hne. revert clients1 clients2.
  induction events as [|[ip' now|clock] events IH]; intros clients1 clients2 Heq.
  - by exists clients1, [], clients2, [].
  - unfold without in *. destruct (decide (ip' = other)) as [->|Hkeep].
    + rewrite filter_cons_False by (simpl; tauto).
      rewrite serve_cons_request.
      destruct (IH (outcome cfg other now clients1).1 clients2)
        as (final1 & log1 & final2 & log2 & -> & -> & Hlog & Hfin).
      { by rewrite outcome_other. }
      eexists _, _, _, _. repeat split; [|done]. cbn [mbind option_bind].
      rewrite verdicts_of_cons. by destruct (decide (other = ip)).
    + rewrite filter_cons_True by done.
      rewrite !serve_cons_request.
      assert ((outcome cfg ip' now clients1).1 !! ip = (outcome cfg ip' now clients2).1 !! ip
              ∧ (ip' = ip → (outcome cfg ip' now clients1).2 = (outcome cfg ip' now clients2).2))
        as [Hnext Hv].
      { destruct (decide (ip' = ip)) as [->|Hne'].
        - destruct (outcome_same cfg ip now clients1 clients2 Heq). done.
        - rewrite !outcome_other by done. done. }
      destruct (IH _ _ Hnext) as (final1 & log1 & final2 & log2 & -> & -> & Hlog & Hfin).
      eexists _, _, _, _. repeat split; [|done]. cbn [mbind option_bind].
      rewrite !verdicts_of_cons. destruct (decide (ip' = ip)) as [e|]; [|done].
      by rewrite Hlog, (Hv e).
  - unfold without in *. rewrite filter_cons_True by done.
    cbn [serve]. apply IH. by rewrite !sweep_lookup, Heq.
Qed.

End frame.

(** C8.  For two distinct addresses [a] and [b]: a request of [a] leaves the
    entry of [b] as it was, and over any run the verdicts given to [b] and the
    entry kept for [b] are those of the run from which every request of [a]
    has been taken out. *)
Theorem distinct_clients_independent (cfg : limiter_config) (a b : string) :
  a ≠ b →
  (∀ now (clients : gmap string Client),
     ∃ clients' v, rateLimit cfg a now clients = Some (clients', v) ∧
                   clients' !! b = clients !! b) ∧
  (∀ events (clients : gmap string Client),
     ∃ final1 log1 final2 log2,
       serve cfg events clients = Some (final1, log1) ∧
       serve cfg (without a events) clients = Some (final2, log2) ∧
       verdicts_of b log1 = verdicts_of b log2 ∧
       final1 !! b = final2 !! b).
Proof.
  intros Hne. split.
  - intros now clients. rewrite rateLimit_outcome.
    exists (outcome cfg a now clients).1, (outcome cfg a now clients).2.
    split; [by destruct (outcome cfg a now clients)|]. by apply outcome_other.
  - intros events clients. by apply serve_without.
Qed.

Lemma distinct_clients_independent_witness :
  ∃ final1 log1 final2 log2,
    serve default_limiter_config
      (replicate 6 (Request "192.0.2.1" 0) ++ replicate 5 (Request "198.51.100.7" 1)) ∅
    = Some (final1, log1) ∧
    serve default_limiter_config
      (without "192.0.2.1"
         (replicate 6 (Request "192.0.2.1" 0) ++ replicate 5 (Request "198.51.100.7" 1))) ∅
    = Some (final2, log2) ∧
    verdicts_of "198.51.100.7" log1 = verdicts_of "198.51.100.7" log2 ∧
    final1 !! "198.51.100.7" = final2 !! "198.51.100.7".
Proof.
  apply (proj2 (distinct_clients_independent default_limiter_config
                  "192.0.2.1" "198.51.100.7" ltac:(discriminate))).
Defined.

Example exhausted_neighbour :
  verdicts_of "198.51.100.7" <$> (snd <$>
    serve default_limiter_config
      (replicate 6 (Request "192.0.2.1" 0) ++ replicate 5 (Request "198.51.100.7" 1)) ∅)
  = Some [Allow; Allow; Allow; Allow; Deny].
Proof. vm_compute. reflexivity. Qed.

(** ** Eviction *)

Lemma Since_over (now t : time.Time) :
  3 * time.Minute < time.Since now t ↔ 3 * time.Minute < now - t.
Proof.
  unfold time.Since, time.Sub.
  change time.minDuration with (-9223372036854775808).
  change time.maxDuration with 9223372036854775807.
  change (3 * time.Minute) with 180000000000.
  destruct (Z.ltb_spec (now - t) (-9223372036854775808));
    [lia | destruct (Z.ltb_spec 9223372036854775807 (now - t)); lia].
Qed.

(** C4.  An entry whose [lastSeen] lies more than three minutes before the
    clock reading of the sweep is deleted by the sweep.  From then on the
    address is served as if it had never been seen: over any later run its
    verdicts and its entry are those of the same run on the empty registry,
    and with the limiter on its next burst gets the full capacity. *)
Theorem stale_entry_is_forgotten (cfg : limiter_config) (clock : string → time.Time)
    (clients : gmap string Client) (ip : string) (c : Client) :
  clients !! ip = Some c →
  3 * time.Minute < clock ip - lastSeen c →
  sweep clock clients !! ip = None ∧
  (∀ events,
     ∃ final1 log1 final2 log2,
       serve cfg events (sweep clock clients) = Some (final1, log1) ∧
       serve cfg events ∅ = Some (final2, log2) ∧
       verdicts_of ip log1 = verdicts_of ip log2 ∧
       final1 !! ip = final2 !! ip) ∧
  (enabled cfg = true → 0 ≤ burst cfg →
   ∀ now n, ∃ final,
     serve cfg (replicate n (Request ip now)) (sweep clock clients) =
     Some (final, replicate (n `min` Z.to_nat (burst cfg)) (ip, Allow)
                  ++ replicate (n - Z.to_nat (burst cfg)) (ip, Deny))).
Proof.
  intros Hc Hold.
  assert (sweep clock clients !! ip = None) as Hgone.
  { rewrite sweep_lookup, Hc. simpl.
    destruct (decide (stale (clock ip) c)) as [|Hfresh]; [done|].
    exfalso. apply Hfresh. unfold stale. by apply Since_over. }
  split; [done|]. split.
  - intros events. apply serve_same_entry. by rewrite Hgone, lookup_empty.
  - intros Hen HB now n. by apply serve_fresh_burst.
Qed.

Lemma stale_entry_is_forgotten_witness :
  ∃ final,
    serve default_limiter_config (replicate 5 (Request "192.0.2.1" 181000000007))
      (sweep (λ _, 181000000007) spent_registry) =
    Some (final, replicate (5 `min` Z.to_nat (burst default_limiter_config))
                   ("192.0.2.1", Allow)
                 ++ replicate (5 - Z.to_nat (burst default_limiter_config))
                      ("192.0.2.1", Deny)).
Proof.
  apply (proj2 (proj2 (stale_entry_is_forgotten default_limiter_config
                         (λ _, 181000000007) spent_registry "192.0.2.1"
                         {| limiter := {| rate.capacity := 4;
                                          rate.refillRatePerSecond := 2;
                                          rate.tokens := 0;
                                          rate.lastRefillInstant := 7 |};
                            lastSeen := 7 |}
                         ltac:(reflexivity) ltac:(vm_compute; reflexivity))));
    [reflexivity | simpl; lia].
Defined.

(** An entry seen within the last three minutes stays. *)
Example recent_entry_is_kept :
  sweep (λ _, 180000000007) spent_registry = spent_registry.
Proof. vm_compute. reflexivity. Qed.

(** ** Refill *)

Section refill.

Local Open Scope Q_scope.

Implicit Types (lim : rate.Limiter) (now : time.Time).

Lemma floor_bounds (x : Q) :
  0 <= x →
  inject_Z (Z.of_nat (Z.to_nat (Qfloor x))) <= x ∧
  x < inject_Z (Z.of_nat (Z.to_nat (Qfloor x))) + 1.
Proof.
  intros Hx.
  assert (0 ≤ Qfloor x)%Z as Hf.
  { change 0%Z with (Qfloor 0). by apply Qfloor_resp_le. }
  rewrite Z2Nat.id by done. split.
  - apply Qfloor_le.
  - pose proof (Qlt_floor x) as Hlt.
    rewrite inject_Z_plus in Hlt. exact Hlt.
Qed.

(** The refill of one token: what a bucket below its capacity holds after
    the [d] nanoseconds in which its rate yields one token. *)
Lemma refill_one_token lim (d : time.Duration) (k : nat) :
  inject_Z (Z.of_nat k) <= rate.tokens lim →
  rate.tokens lim < inject_Z (Z.of_nat k) + 1 →
  rate.tokens lim < inject_Z (rate.capacity lim) →
  time.Seconds d * rate.refillRatePerSecond lim == 1 →
  inject_Z (Z.of_nat (S k))
    <= rate.tokens (rate.refill lim (rate.lastRefillInstant lim + d)%Z) ∧
  rate.tokens (rate.refill lim (rate.lastRefillInstant lim + d)%Z)
    < inject_Z (Z.of_nat (S k)) + 1.
Proof.
  intros Hlo Hhi Hcap Hone.
  rewrite Nat2Z.inj_succ, <- Z.add_1_r, inject_Z_plus.
  change (inject_Z 1) with 1.
  assert (inject_Z (Z.of_nat k) + 1 <= inject_Z (rate.capacity lim)) as Hroom.
  { change 1 with (inject_Z 1). rewrite <- inject_Z_plus, <- Zle_Qle.
    assert (Z.of_nat k < rate.capacity lim)%Z; [|lia].
    rewrite Zlt_Qlt. eapply Qle_lt_trans; [exact Hlo | exact Hcap]. }
  unfold rate.refill; cbn [rate.tokens rate.capacity].
  replace (rate.lastRefillInstant lim + d - rate.lastRefillInstant lim)%Z
    with d by lia.
  set (e := time.Seconds d * rate.refillRatePerSecond lim) in *. clearbody e.
  set (cap := inject_Z (rate.capacity lim)) in *. clearbody cap.
  set (q := inject_Z (Z.of_nat k)) in *. clearbody q.
  destruct (Qle_bool cap (rate.tokens lim + e)) eqn:E;
    [apply Qle_bool_true in E | apply Qle_bool_false in E]; lra.
Qed.

End refill.

(** C6.  A bucket that holds fewer tokens than its capacity, and a pause of
    [d] nanoseconds in which its rate yields one token ([d] is 1/R seconds).
    Without the pause a burst of [n] requests, [n] above the capacity, has [k]
    of them let through; after the pause, with no check in between, the same
    burst has [k + 1] let through. *)
Theorem refill_grants_one_more (cfg : limiter_config) (ip : string)
    (clients : gmap string Client) (c : Client) (d : time.Duration) (n : nat) :
  enabled cfg = true →
  clients !! ip = Some c →
  (0 <= rate.tokens (limiter c))%Q →
  (rate.tokens (limiter c) < inject_Z (rate.capacity (limiter c)))%Q →
  (time.Seconds d * rate.refillRatePerSecond (limiter c) == 1)%Q →
  rate.capacity (limiter c) < Z.of_nat n →
  ∃ (k : nat) final1 final2,
    (S k ≤ n)%nat ∧
    serve cfg (replicate n (Request ip (rate.lastRefillInstant (limiter c)))) clients =
      Some (final1, replicate k (ip, Allow) ++ replicate (n - k) (ip, Deny)) ∧
    serve cfg (replicate n (Request ip (rate.lastRefillInstant (limiter c) + d))) clients =
      Some (final2, replicate (S k) (ip, Allow) ++ replicate (n - S k) (ip, Deny)).
Proof.
  intros Hen Hc H0 Hcap Hone Hn.
  set (lim := limiter c) in *.
  destruct (floor_bounds (rate.tokens lim) H0) as [Hlo Hhi].
  set (k := Z.to_nat (Qfloor (rate.tokens lim))) in *.
  assert (Z.of_nat k < rate.capacity lim) as Hk.
  { rewrite Zlt_Qlt. eapply Qle_lt_trans; [exact Hlo | exact Hcap]. }
  assert (bucket_of cfg ip (rate.lastRefillInstant lim) clients = lim) as Hb1.
  { unfold bucket_of. by rewrite Hc. }
  assert (bucket_of cfg ip (rate.lastRefillInstant lim + d) clients = lim) as Hb2.
  { unfold bucket_of. by rewrite Hc. }
  exists k.
  destruct (serve_burst cfg ip (rate.lastRefillInstant lim) n clients Hen) as [final1 ->].
  destruct (serve_burst cfg ip (rate.lastRefillInstant lim + d) n clients Hen) as [final2 ->].
  exists final1, final2. rewrite Hb1, Hb2. split; [lia|]. split.
  - f_equal. f_equal. rewrite <- fmap_verdicts. f_equal.
    assert (rate.tokens (rate.refill lim (rate.lastRefillInstant lim)) == rate.tokens lim)%Q
      as Hsame.
    { apply refill_same_instant; [done|]. by apply Qlt_le_weak. }
    rewrite (drain_verdicts _ n lim k); [| by rewrite Hsame | by rewrite Hsame].
    by rewrite Nat.min_r by lia.
  - f_equal. f_equal. rewrite <- fmap_verdicts. f_equal.
    destruct (refill_one_token lim d k Hlo Hhi Hcap Hone) as [Hlo' Hhi'].
    rewrite (drain_verdicts _ n lim (S k) Hlo' Hhi').
    by rewrite Nat.min_r by lia.
Qed.

Lemma refill_grants_one_more_witness :
  ∃ (k : nat) final1 final2,
    (S k ≤ 5)%nat ∧
    serve default_limiter_config (replicate 5 (Request "192.0.2.1" 7)) spent_registry =
      Some (final1, replicate k ("192.0.2.1", Allow) ++ replicate (5 - k) ("192.0.2.1", Deny)) ∧
    serve default_limiter_config
      (replicate 5 (Request "192.0.2.1" (7 + 500000000))) spent_registry =
      Some (final2, replicate (S k) ("192.0.2.1", Allow)
                    ++ replicate (5 - S k) ("192.0.2.1", Deny)).
Proof.
  apply (refill_grants_one_more default_limiter_config "192.0.2.1" spent_registry
           {| limiter := {| rate.capacity := 4;
                            rate.refillRatePerSecond := 2;
                            rate.tokens := 0;
                            rate.lastRefillInstant := 7 |};
              lastSeen := 7 |} 500000000 5).
  - reflexivity.
  - reflexivity.
  - vm_compute. discriminate.
  - vm_compute. reflexivity.
  - vm_compute. reflexivity.
  - simpl. lia.
Defined.

(** ** Concurrent requests of one client *)

Section interleaving.

Context (cfg : limiter_config) (ip : string) (now : time.Time) (n : nat).
Hypothesis limiter_on : enabled cfg = true.
Hypothesis burst_nonneg : 0 ≤ burst cfg.

Implicit Types (w : World) (l : list Pc) (pc : Pc) (i j : nat).

Lemma sum_list_insert (f : Pc → nat) l i old new :
  l !! i = Some old →
  (sum_list (f <$> <[i := new]> l) + f old = sum_list (f <$> l) + f new)%nat.
Proof.
  revert i. induction l as [|pc l IH]; intros [|i] Hi; simplify_eq/=; [lia|].
  specialize (IH i Hi). lia.
Qed.

Lemma length_filter_sum (g : Pc → bool) l :
  length (filter (λ pc, g pc = true) l) =
  sum_list ((λ pc, if g pc then 1%nat else 0%nat) <$> l).
Proof.
  induction l as [|pc l IH]; [done|].
  rewrite filter_cons. simpl. destruct (g pc) eqn:E.
  - rewrite decide_True by done. simpl. by rewrite IH.
  - rewrite decide_False by done. done.
Qed.

Lemma tally_goto v w i old new mu clients :
  pcs w !! i = Some old →
  (tally v {| mutex := mu; registry := clients; pcs := <[i := new]> (pcs w) |}
   + (if decided v old then 1 else 0)
   = tally v w + (if decided v new then 1 else 0))%nat.
Proof.
  intros Hi. unfold tally. cbn [pcs]. rewrite !length_filter_sum.
  by apply (sum_list_insert (λ pc, if decided v pc then 1%nat else 0%nat)).
Qed.

Lemma remaining_goto w i old new mu clients :
  pcs w !! i = Some old →
  (remaining {| mutex := mu; registry := clients; pcs := <[i := new]> (pcs w) |}
   + distance old = remaining w + distance new)%nat.
Proof. intros Hi. unfold remaining. cbn [pcs]. by apply sum_list_insert. Qed.

Lemma lookup_goto l i j old new pc :
  l !! i = Some old →
  <[i := new]> l !! j = Some pc →
  (j = i ∧ pc = new) ∨ (j ≠ i ∧ l !! j = Some pc).
Proof.
  intros Hi Hj. destruct (decide (j = i)) as [->|Hne].
  - left. rewrite list_lookup_insert_eq in Hj by (by eapply lookup_lt_Some).
    by injection Hj as <-.
  - right. by rewrite list_lookup_insert_ne in Hj.
Qed.

Lemma all_left_remaining w : all_left w ↔ remaining w = 0%nat.
Proof.
  unfold all_left, remaining. induction (pcs w) as [|pc l IH]; [done|].
  rewrite Forall_cons. simpl. rewrite IH. destruct pc; simpl; intuition lia.
Qed.

Lemma all_left_tally w :
  all_left w → (tally Allow w + tally Deny w = length (pcs w))%nat.
Proof.
  unfold all_left, tally. rewrite !length_filter_sum.
  induction (pcs w) as [|pc l IH]; [done|].
  rewrite Forall_cons. intros [Hpc Hl]. specialize (IH Hl).
  destruct pc as [| | | | | |[|]]; csimpl in *; try done;
    repeat case_bool_decide; simplify_eq; lia.
Qed.

Lemma coherent_arrivals (clients : gmap string Client) :
  clients !! ip = None → coherent cfg ip now n (arrivals n clients).
Proof.
  intros Hnew.
  assert (∀ j pc, replicate n Arrived !! j = Some pc → pc = Arrived) as Harr.
  { intros j pc Hj. apply lookup_replicate in Hj. by destruct Hj. }
  assert (∀ v, tally v (arrivals n clients) = 0%nat) as Hzero.
  { intros v. unfold tally, arrivals; cbn [pcs]. rewrite length_filter_sum.
    clear. induction n; simpl; [done|]. done. }
  constructor; unfold arrivals; cbn [pcs mutex registry].
  - apply length_replicate.
  - intros j pc Hj. by rewrite (Harr j pc Hj).
  - done.
  - intros j Hj. by apply Harr in Hj.
  - intros j pc Hj. apply Harr in Hj. by intros [->| ->].
  - fold (arrivals n clients). rewrite Hzero, Z.sub_0_r.
    unfold bucket_of. rewrite Hnew.
    apply refill_same_instant; [done|]. apply Qle_refl.
  - fold (arrivals n clients). rewrite Hzero. done.
  - fold (arrivals n clients). rewrite Hzero. lia.
Qed.

(** A statement of goroutine [i], seen from the invariant: nobody else is
    between lock and unlock, and [i] holds the mutex exactly while it is. *)
Lemma coherent_step w i old new mu (clients : gmap string Client) :
  coherent cfg ip now n w →
  pcs w !! i = Some old →
  mutex w = None ∨ in_section old →
  (in_section new ∧ mu = Some i) ∨ (¬ in_section new ∧ mu = None) →
  (new = AtCreate → clients !! ip = None) →
  (new = AtSeen ∨ new = AtAllow → is_Some (clients !! ip)) →
  (rate.tokens (rate.refill (bucket_of cfg ip now clients) now)
   == inject_Z (burst cfg - Z.of_nat
        (tally Allow {| mutex := mu; registry := clients; pcs := <[i := new]> (pcs w) |})))%Q →
  Z.of_nat (tally Allow {| mutex := mu; registry := clients; pcs := <[i := new]> (pcs w) |})
    ≤ burst cfg →
  ((0 < tally Deny {| mutex := mu; registry := clients; pcs := <[i := new]> (pcs w) |})%nat →
   Z.of_nat (tally Allow {| mutex := mu; registry := clients; pcs := <[i := new]> (pcs w) |})
   = burst cfg) →
  coherent cfg ip now n {| mutex := mu; registry := clients; pcs := <[i := new]> (pcs w) |}.
Proof.
  intros [Hlen Hholder Hheld Hcreate Hentry _ _ _] Hi Hfree Hmu Hnew Hsome Htok Hal Hde.
  assert (∀ j pc, j ≠ i → pcs w !! j = Some pc → ¬ in_section pc) as Hothers.
  { intros j pc Hne Hj Hsec. pose proof (Hholder j pc Hj Hsec) as Hmj.
    destruct Hfree as [Hnone|Hold]; [congruence|].
    pose proof (Hholder i old Hi Hold) as Hmi. congruence. }
  assert (<[i := new]> (pcs w) !! i = Some new) as Hi'.
  { apply list_lookup_insert_eq. by eapply lookup_lt_Some. }
  constructor; cbn [pcs mutex registry]; try done.
  - by rewrite length_insert.
  - intros j pc Hj Hsec.
    destruct (lookup_goto _ _ _ _ _ _ Hi Hj) as [[-> ->]|[Hne Hj']].
    + destruct Hmu as [[_ ->]|[Hout _]]; [done|tauto].
    + destruct (Hothers j pc Hne Hj' Hsec).
  - intros j ->. destruct Hmu as [[Hsec [= ->]]|[_ [=]]]. by exists new.
  - intros j Hj.
    destruct (lookup_goto _ _ _ _ _ _ Hi Hj) as [[-> <-]|[Hne Hj']]; [by apply Hnew|].
    by destruct (Hothers j AtCreate Hne Hj').
  - intros j pc Hj Hpc.
    destruct (lookup_goto _ _ _ _ _ _ Hi Hj) as [[-> ->]|[Hne Hj']]; [by apply Hsome|].
    destruct (Hothers j pc Hne Hj'). by destruct Hpc as [->| ->].
Qed.

(** The same for a statement that gives no verdict and leaves the bucket of
    [ip] alone. *)
Lemma coherent_quiet w i old new mu (clients : gmap string Client) :
  coherent cfg ip now n w →
  pcs w !! i = Some old →
  mutex w = None ∨ in_section old →
  (in_section new ∧ mu = Some i) ∨ (¬ in_section new ∧ mu = None) →
  (new = AtCreate → clients !! ip = None) →
  (new = AtSeen ∨ new = AtAllow → is_Some (clients !! ip)) →
  (∀ v, decided v new = decided v old) →
  bucket_of cfg ip now clients = bucket_of cfg ip now (registry w) →
  coherent cfg ip now n {| mutex := mu; registry := clients; pcs := <[i := new]> (pcs w) |}.
Proof.
  intros Hcoh Hi Hfree Hmu Hnew Hsome Hsame Hbucket.
  assert (∀ v, tally v {| mutex := mu; registry := clients; pcs := <[i := new]> (pcs w) |}
               = tally v w) as Htally.
  { intros v. pose proof (tally_goto v w i old new mu clients Hi) as Ht.
    rewrite Hsame in Ht. lia. }
  apply (coherent_step w i old new mu clients); try done; rewrite !Htally.
  - rewrite Hbucket. apply Hcoh.
  - apply Hcoh.
  - apply Hcoh.
Qed.

Lemma bucket_of_fresh (clients : gmap string Client) seen :
  clients !! ip = None →
  bucket_of cfg ip now
    (<[ip := {| limiter := rate.NewLimiter (rps cfg) (burst cfg) now;
                lastSeen := seen |}]> clients)
  = bucket_of cfg ip now clients.
Proof. intros Hnone. rewrite bucket_of_insert. unfold bucket_of. by rewrite Hnone. Qed.

Ltac side :=
  try done;
  try (intros [?|?]; discriminate);
  try (left; split; [exact I | done]);
  try (right; split; [intros [] | done]);
  try (right; exact I);
  try (left; assumption).

(** Every statement keeps the invariant. *)
Lemma move_coherent w i w' :
  coherent cfg ip now n w →
  move cfg ip now i w = Moved w' →
  coherent cfg ip now n w'.
Proof.
  intros Hcoh Hmove. unfold move in Hmove.
  destruct (pcs w !! i) as [pc|] eqn:Hi; [|done].
  destruct pc as [| | | | |v|v]; try done.
  - rewrite limiter_on in Hmove.
    destruct (mutex w) eqn:Hmu; [done|]. injection Hmove as <-.
    apply (coherent_quiet w i Arrived); side.
  - assert (mutex w = Some i) as Hmu by (by eapply (coh_holder _ _ _ _ _ Hcoh)).
    destruct (registry w !! ip) as [c|] eqn:Hc; injection Hmove as <-; unfold goto;
      apply (coherent_quiet w i AtLookup); side.
  - assert (mutex w = Some i) as Hmu by (by eapply (coh_holder _ _ _ _ _ Hcoh)).
    pose proof (coh_create _ _ _ _ _ Hcoh i Hi) as Hnone.
    injection Hmove as <-. unfold goto.
    apply (coherent_quiet w i AtCreate); side.
    + intros _. rewrite lookup_insert_eq. done.
    + by apply bucket_of_fresh.
  - assert (mutex w = Some i) as Hmu by (by eapply (coh_holder _ _ _ _ _ Hcoh)).
    destruct (coh_entry _ _ _ _ _ Hcoh i AtSeen Hi) as [c Hc]; [by left|].
    unfold touch in Hmove. rewrite Hc in Hmove. simpl in Hmove.
    injection Hmove as <-. unfold goto.
    apply (coherent_quiet w i AtSeen); side.
    + intros _. rewrite lookup_insert_eq. done.
    + rewrite bucket_of_insert. unfold bucket_of. by rewrite Hc.
  - assert (mutex w = Some i) as Hmu by (by eapply (coh_holder _ _ _ _ _ Hcoh)).
    destruct (coh_entry _ _ _ _ _ Hcoh i AtAllow Hi) as [c Hc]; [by right|].
    unfold consult in Hmove. rewrite Hc in Hmove. simpl in Hmove.
    pose proof (Allow_tokens (limiter c) now) as Htok.
    pose proof (Allow_instant (limiter c) now) as Hinst.
    pose proof (Allow_capacity (limiter c) now) as Hcap.
    pose proof (Allow_granted (limiter c) now) as Hyes.
    pose proof (Allow_refused (limiter c) now) as Hno.
    pose proof (refill_tokens_le_capacity (limiter c) now) as Hle.
    pose proof (coh_tokens _ _ _ _ _ Hcoh) as Hbal.
    pose proof (coh_allowed _ _ _ _ _ Hcoh) as Hal.
    pose proof (coh_denied _ _ _ _ _ Hcoh) as Hde.
    unfold bucket_of in Hbal. rewrite Hc in Hbal.
    destruct (rate.Allow (limiter c) now) as [lim ok]; cbn [fst snd] in *.
    injection Hmove as <-. unfold goto.
    set (clients := <[ip := {| limiter := lim; lastSeen := lastSeen c |}]> (registry w)).
    pose proof (tally_goto Allow w i AtAllow (AtUnlock (verdict ok)) (mutex w) clients Hi) as Ha.
    pose proof (tally_goto Deny w i AtAllow (AtUnlock (verdict ok)) (mutex w) clients Hi) as Hd.
    assert (rate.tokens (rate.refill (bucket_of cfg ip now clients) now) == rate.tokens lim)%Q
      as Hsame.
    { unfold clients. rewrite bucket_of_insert. cbn [limiter].
      apply refill_same_instant; [done|]. rewrite Hcap.
      destruct ok; lra. }
    apply (coherent_step w i AtAllow); side.
    + rewrite Hsame, Htok, Hbal. destruct ok; cbn [verdict] in *; simpl in Ha.
      * replace (burst cfg - Z.of_nat (tally Allow {| mutex := mutex w; registry := clients;
                   pcs := <[i := AtUnlock Allow]> (pcs w) |}))
          with (burst cfg - Z.of_nat (tally Allow w) + -1) by lia.
        rewrite inject_Z_plus. reflexivity.
      * replace (tally Allow {| mutex := mutex w; registry := clients;
                   pcs := <[i := AtUnlock Deny]> (pcs w) |}) with (tally Allow w) by lia.
        lra.
    + destruct ok; cbn [verdict] in *; simpl in Ha; [|lia].
      destruct Hyes as [Hyes _]. specialize (Hyes eq_refl).
      rewrite Hbal in Hyes. change 1%Q with (inject_Z 1) in Hyes.
      rewrite <- Zle_Qle in Hyes. lia.
    + destruct ok; cbn [verdict] in *; simpl in Ha, Hd.
      * intros Hpos. assert (0 < tally Deny w)%nat as Hw by lia.
        specialize (Hde Hw).
        destruct Hyes as [Hyes _]. specialize (Hyes eq_refl).
        rewrite Hbal in Hyes. change 1%Q with (inject_Z 1) in Hyes.
        rewrite <- Zle_Qle in Hyes. lia.
      * intros _. destruct Hno as [Hno _]. specialize (Hno eq_refl).
        rewrite Hbal in Hno. change 1%Q with (inject_Z 1) in Hno.
        rewrite <- Zlt_Qlt in Hno. lia.
  - assert (mutex w = Some i) as Hmu by (by eapply (coh_holder _ _ _ _ _ Hcoh)).
    injection Hmove as <-.
    apply (coherent_quiet w i (AtUnlock v)); side.
Qed.

(** Every statement brings its goroutine nearer to its answer. *)
Lemma move_remaining w i w' :
  move cfg ip now i w = Moved w' → (remaining w' < remaining w)%nat.
Proof.
  unfold move. destruct (pcs w !! i) as [pc|] eqn:Hi; [|done].
  destruct pc as [| | | | |v|v]; try done.
  - destruct (enabled cfg); [destruct (mutex w); [done|]|]; intros [= <-].
    + pose proof (remaining_goto w i _ AtLookup (Some i) (registry w) Hi).
      simpl in *. lia.
    + pose proof (remaining_goto w i _ (Left Allow) (mutex w) (registry w) Hi).
      unfold goto. simpl in *. lia.
  - destruct (registry w !! ip); intros [= <-]; unfold goto.
    + pose proof (remaining_goto w i _ AtSeen (mutex w) (registry w) Hi).
      simpl in *. lia.
    + pose proof (remaining_goto w i _ AtCreate (mutex w) (registry w) Hi).
      simpl in *. lia.
  - intros [= <-]. unfold goto.
    match goal with |- context [mkWorld ?mu ?cl (<[i := ?new]> _)] =>
      pose proof (remaining_goto w i _ new mu cl Hi) end.
    simpl in *. lia.
  - destruct (touch ip now (registry w)) as [clients|]; [|done].
    intros [= <-]. unfold goto.
    pose proof (remaining_goto w i _ AtAllow (mutex w) clients Hi).
    simpl in *. lia.
  - destruct (consult ip now (registry w)) as [[clients ok]|]; [|done].
    intros [= <-]. unfold goto.
    pose proof (remaining_goto w i _ (AtUnlock (verdict ok)) (mutex w) clients Hi).
    simpl in *. lia.
  - intros [= <-].
    pose proof (remaining_goto w i _ (Left v) None (registry w) Hi).
    simpl in *. lia.
Qed.

(** No statement dereferences a missing entry. *)
Lemma move_no_panic w i :
  coherent cfg ip now n w → move cfg ip now i w ≠ Panics.
Proof.
  intros Hcoh. unfold move.
  destruct (pcs w !! i) as [pc|] eqn:Hi; [|done].
  destruct pc as [| | | | |v|v]; try done.
  - destruct (enabled cfg); [destruct (mutex w)|]; done.
  - destruct (registry w !! ip); done.
  - destruct (coh_entry _ _ _ _ _ Hcoh i AtSeen Hi) as [c Hc]; [by left|].
    unfold touch. rewrite Hc. done.
  - destruct (coh_entry _ _ _ _ _ Hcoh i AtAllow Hi) as [c Hc]; [by right|].
    unfold consult. rewrite Hc. simpl. by destruct (rate.Allow (limiter c) now).
Qed.

(** The holder of the mutex can always run its next statement. *)
Lemma holder_moves w i pc :
  coherent cfg ip now n w →
  pcs w !! i = Some pc → in_section pc →
  ∃ w', move cfg ip now i w = Moved w'.
Proof.
  intros Hcoh Hi Hsec.
  pose proof (move_no_panic w i Hcoh) as Hsafe.
  unfold move in *. rewrite Hi in *.
  destruct pc as [| | | | |v|v]; try done.
  - destruct (registry w !! ip); eauto.
  - eauto.
  - destruct (touch ip now (registry w)); [eauto|done].
  - destruct (consult ip now (registry w)) as [[clients ok]|]; [eauto|done].
  - eauto.
Qed.

(** While a request is unanswered some goroutine can run. *)
Lemma some_goroutine_moves w :
  coherent cfg ip now n w → ¬ all_left w →
  ∃ i w', move cfg ip now i w = Moved w'.
Proof.
  intros Hcoh Hnot.
  destruct (mutex w) as [j|] eqn:Hmu.
  - destruct (coh_held _ _ _ _ _ Hcoh j Hmu) as (pc & Hj & Hsec).
    exists j. by eapply holder_moves.
  - apply not_Forall_Exists in Hnot; [|apply _].
    apply Exists_exists in Hnot. destruct Hnot as (pc & Hin & Hpc).
    apply list_elem_of_lookup in Hin. destruct Hin as [i Hi].
    exists i. destruct (decide (pc = Arrived)) as [->|Hne].
    + unfold move. rewrite Hi, limiter_on, Hmu. eauto.
    + assert (in_section pc) as Hsec.
      { destruct pc; try done. exfalso. by apply Hpc. }
      pose proof (coh_holder _ _ _ _ _ Hcoh i pc Hi Hsec). congruence.
Qed.

(** Whatever the order of the turns, no goroutine panics and the invariant
    holds at the end. *)
Lemma run_coherent schedule : ∀ w,
  coherent cfg ip now n w →
  ∃ w', run cfg (λ _, (ip, now)) schedule w = Some w' ∧ coherent cfg ip now n w'.
Proof.
  induction schedule as [|i schedule IH]; intros w Hcoh; cbn [run fst snd].
  - by exists w.
  - pose proof (move_no_panic w i Hcoh) as Hsafe.
    destruct (move cfg ip now i w) as [w1| |] eqn:Hmove; [| by apply IH | done].
    apply IH. by eapply move_coherent.
Qed.

(** From every such world some order of turns answers every request. *)
Lemma run_completes (k : nat) : ∀ w,
  (remaining w ≤ k)%nat →
  coherent cfg ip now n w →
  ∃ schedule w', run cfg (λ _, (ip, now)) schedule w = Some w' ∧ all_left w'.
Proof.
  induction k as [|k IH]; intros w Hk Hcoh.
  - exists [], w. split; [done|]. apply all_left_remaining. lia.
  - destruct (decide (all_left w)) as [Hall|Hnot].
    { by exists [], w. }
    destruct (some_goroutine_moves w Hcoh Hnot) as (i & w1 & Hmove).
    pose proof (move_remaining w i w1 Hmove) as Hless.
    destruct (IH w1) as (schedule & w' & Hrun & Hall);
      [lia | by eapply move_coherent |].
    exists (i :: schedule), w'. cbn [run fst snd]. by rewrite Hmove.
Qed.

(** The count at the end: with ten times the burst of requests, the burst
    itself gets [Allow]. *)
Lemma coherent_final w :
  n = Z.to_nat (10 * burst cfg) →
  coherent cfg ip now n w →
  all_left w →
  Z.of_nat (tally Allow w) = burst cfg ∧ Z.of_nat (tally Deny w) = 9 * burst cfg.
Proof.
  intros Hn Hcoh Hall.
  pose proof (all_left_tally w Hall) as Hsum.
  rewrite (coh_length _ _ _ _ _ Hcoh) in Hsum.
  pose proof (coh_allowed _ _ _ _ _ Hcoh) as Hal.
  pose proof (coh_denied _ _ _ _ _ Hcoh) as Hde.
  destruct (decide (0 < tally Deny w)%nat) as [Hpos|Hzero].
  - specialize (Hde Hpos). lia.
  - lia.
Qed.

(** A goroutine that runs alone from lock to unlock does what the handler
    does in one piece. *)
Lemma goroutine_alone w i :
  mutex w = None →
  pcs w !! i = Some Arrived →
  run cfg (λ _, (ip, now)) (replicate 6 i) w =
  Some {| mutex := None;
          registry := (outcome cfg ip now (registry w)).1;
          pcs := <[i := Left (outcome cfg ip now (registry w)).2]> (pcs w) |}.
Proof.
  intros Hmu Hi.
  assert (i < length (pcs w))%nat as Hlt by (by eapply lookup_lt_Some).
  assert (∀ pc l, length l = length (pcs w) → <[i := pc]> l !! i = Some pc) as Hat.
  { intros pc l Hl. apply list_lookup_insert_eq. by rewrite Hl. }
  unfold outcome, bucket_of. rewrite limiter_on.
  cbn [replicate run fst snd].
  unfold move at 1. rewrite Hi, limiter_on, Hmu. cbn [pcs mutex registry].
  unfold move at 1. cbn [pcs mutex registry]. rewrite Hat by done.
  destruct (registry w !! ip) as [c|] eqn:Hc; unfold goto; cbn [pcs mutex registry].
  - rewrite list_insert_insert_eq.
    unfold move at 1. cbn [pcs mutex registry]. rewrite Hat by done.
    unfold touch. rewrite Hc. cbn [mbind option_bind]. unfold goto; cbn [pcs mutex registry].
    rewrite list_insert_insert_eq.
    unfold move at 1. cbn [pcs mutex registry]. rewrite Hat by done.
    unfold consult. rewrite lookup_insert_eq. cbn [mbind option_bind limiter lastSeen].
    destruct (rate.Allow (limiter c) now) as [lim ok].
    unfold goto; cbn [pcs mutex registry fst snd].
    rewrite list_insert_insert_eq, insert_insert_eq.
    unfold move at 1. cbn [pcs mutex registry]. rewrite Hat by done.
    rewrite list_insert_insert_eq.
    unfold move at 1. cbn [pcs mutex registry]. rewrite Hat by done.
    done.
  - rewrite list_insert_insert_eq.
    unfold move at 1. cbn [pcs mutex registry]. rewrite Hat by done.
    unfold goto; cbn [pcs mutex registry]. rewrite list_insert_insert_eq.
    unfold move at 1. cbn [pcs mutex registry]. rewrite Hat by done.
    unfold touch. rewrite lookup_insert_eq. cbn [mbind option_bind limiter].
    unfold goto; cbn [pcs mutex registry]. rewrite list_insert_insert_eq, insert_insert_eq.
    unfold move at 1. cbn [pcs mutex registry]. rewrite Hat by done.
    unfold consult. rewrite lookup_insert_eq. cbn [mbind option_bind limiter lastSeen].
    destruct (rate.Allow (rate.NewLimiter (rps cfg) (burst cfg) now) now) as [lim ok].
    unfold goto; cbn [pcs mutex registry fst snd].
    rewrite list_insert_insert_eq, insert_insert_eq.
    unfold move at 1. cbn [pcs mutex registry]. rewrite Hat by done.
    rewrite list_insert_insert_eq. done.
Qed.

End interleaving.

(** C2.  [10 * B] requests of one client never seen before, all at one
    instant, each in a goroutine of its own, with the limiter on and a burst
    of [B >= 0].  In whatever order the goroutines take their turns: none
    panics, at no moment have more than [B] of them been let through, once all
    are answered exactly [B] have [Allow] and the other [9 * B] have [Deny],
    and from every moment on some order of turns answers them all. *)
Theorem concurrent_checks_stay_within_burst (cfg : limiter_config) (ip : string)
    (now : time.Time) (clients : gmap string Client) (schedule : list nat) :
  enabled cfg = true →
  0 ≤ burst cfg →
  clients !! ip = None →
  ∃ w,
    run cfg (λ _, (ip, now)) schedule (arrivals (Z.to_nat (10 * burst cfg)) clients) = Some w ∧
    Z.of_nat (tally Allow w) ≤ burst cfg ∧
    (all_left w →
       Z.of_nat (tally Allow w) = burst cfg ∧ Z.of_nat (tally Deny w) = 9 * burst cfg) ∧
    (∃ rest w', run cfg (λ _, (ip, now)) rest w = Some w' ∧ all_left w').
Proof.
  intros Hen HB Hnew.
  pose proof (coherent_arrivals cfg ip now (Z.to_nat (10 * burst cfg)) HB clients Hnew)
    as Hstart.
  destruct (run_coherent cfg ip now _ Hen schedule _ Hstart) as (w & Hrun & Hcoh).
  exists w. split; [done|]. split; [apply Hcoh|]. split.
  - by apply (coherent_final cfg ip now (Z.to_nat (10 * burst cfg)) HB).
  - by apply (run_completes cfg ip now (Z.to_nat (10 * burst cfg)) Hen (remaining w)).
Qed.

Lemma concurrent_checks_stay_within_burst_witness :
  ∃ w,
    run (parse_limiter_flags 2 1 true) (λ _, ("192.0.2.1", 0))
      [3; 0; 3; 7; 3; 3; 3; 0; 3; 0; 0; 9; 0]%nat
      (arrivals (Z.to_nat (10 * burst (parse_limiter_flags 2 1 true))) ∅) = Some w ∧
    Z.of_nat (tally Allow w) ≤ burst (parse_limiter_flags 2 1 true) ∧
    (all_left w →
       Z.of_nat (tally Allow w) = burst (parse_limiter_flags 2 1 true) ∧
       Z.of_nat (tally Deny w) = 9 * burst (parse_limiter_flags 2 1 true)) ∧
    (∃ rest w', run (parse_limiter_flags 2 1 true) (λ _, ("192.0.2.1", 0)) rest w = Some w'
                ∧ all_left w').
Proof.
  apply (concurrent_checks_stay_within_burst (parse_limiter_flags 2 1 true) "192.0.2.1" 0 ∅);
    [reflexivity | simpl; lia | reflexivity].
Defined.

(** Three requests against a burst of 1, the second goroutine first: it is
    let through, the other two are refused. *)
Example three_goroutines :
  (λ w, (pcs w, mutex w)) <$>
    run (parse_limiter_flags 2 1 true) (λ _, ("192.0.2.1", 0))
      [1; 0; 1; 2; 1; 1; 0; 1; 1; 0; 0; 0; 0; 0; 2; 2; 2; 2; 2]%nat (arrivals 3 ∅)
  = Some ([Left Deny; Left Allow; Left Deny], None).
Proof. vm_compute. reflexivity. Qed.

(** ** The background goroutine *)

Lemma evictor_running (wakes : list WakeUp) : ∀ clients : gmap string Client,
  evictor wakes clients =
  Running (foldl (λ registry wk, sweep (reading wk) registry) clients wakes).
Proof.
  induction wakes as [|wk wakes IH]; intros clients; [done|].
  cbn [evictor evictor_pass foldl]. apply IH.
Qed.

(** C5, as the spec has it, fails: the server has begun its shutdown when
    the goroutine wakes up, and after that pass the goroutine has not
    returned. *)
Lemma evictor_outlives_shutdown :
  ¬ ∃ final,
      evictor [{| shutting_down := true; reading := λ _, 60000000000 |}] ∅
      = Returned final.
Proof. intros [final Hret]. rewrite evictor_running in Hret. discriminate. Qed.

(** C5, amended.  The loop of the background goroutine has no way out: after
    any number of wake-ups, whether or not the server is shutting down at
    any of them, the goroutine is still running, and the registry is the one
    its sweeps have left. *)
Theorem evictor_never_returns (wakes : list WakeUp) (clients : gmap string Client) :
  evictor wakes clients =
    Running (foldl (λ registry wk, sweep (reading wk) registry) clients wakes) ∧
  ∀ final, evictor wakes clients ≠ Returned final.
Proof.
  rewrite evictor_running. split; [done|]. intros final. discriminate.
Qed.

(** * Further properties of the rate limiter *)

#[local] Set Warnings "-clear-no-such-hyp".

Section limiter_extras.

Implicit Types (cfg : limiter_config) (ip : string) (now : time.Time).
Implicit Types (clients : gmap string Client) (events : list Event).

Lemma stale_iff now c : stale now c ↔ 3 * time.Minute < now - lastSeen c.
Proof. unfold stale. apply Since_over. Qed.

End limiter_extras.

(** X1.  The sweep (lines 74-78) keeps exactly the entries seen within the
    last three minutes, each as it was: an entry survives if and only if the
    clock reading at its visit is at most three minutes past its [lastSeen].
    An entry seen exactly three minutes ago stays; no entry is added or
    changed. *)
Theorem sweep_keeps_exactly_the_recent (clock : string → time.Time)
    (clients : gmap string Client) (ip : string) (c : Client) :
  sweep clock clients !! ip = Some c ↔
  clients !! ip = Some c ∧ clock ip - lastSeen c ≤ 3 * time.Minute.
Proof.
  rewrite sweep_lookup. destruct (clients !! ip) as [c'|] eqn:Hc; simpl.
  - destruct (decide (stale (clock ip) c')) as [Hs|Hs]; rewrite stale_iff in Hs.
    + split; [done|]. intros [[= ->] Hle]. lia.
    + split.
      * intros [= ->]. split; [done|lia].
      * by intros [[= ->] _].
  - split; [done|]. by intros [? _].
Qed.

(** X2.  With the limiter on, every request stamps its client's entry with
    the time of the request before the limiter is consulted (line 101), so the
    stamp is set whether the request is let through or refused; a sweep whose
    clock reads at most three minutes later keeps that entry. *)
Theorem every_request_refreshes_lastSeen (cfg : limiter_config) (ip : string)
    (now : time.Time) (clients : gmap string Client) :
  enabled cfg = true →
  ∃ clients' v c,
    rateLimit cfg ip now clients = Some (clients', v) ∧
    clients' !! ip = Some c ∧
    lastSeen c = now ∧
    ∀ clock : string → time.Time,
      clock ip - now ≤ 3 * time.Minute → sweep clock clients' !! ip = Some c.
Proof.
  intros Hen. rewrite rateLimit_closed, Hen.
  eexists _, _, _. split; [done|]. rewrite lookup_insert_eq. split; [done|].
  split; [done|]. intros clock Hle.
  rewrite sweep_lookup, lookup_insert_eq. simpl.
  destruct (decide _) as [Hs|Hs]; [|done].
  apply stale_iff in Hs. simpl in Hs. lia.
Qed.

Lemma every_request_refreshes_lastSeen_witness :
  ∃ clients' v c,
    rateLimit default_limiter_config "192.0.2.1" 9 spent_registry = Some (clients', v) ∧
    clients' !! "192.0.2.1" = Some c ∧
    lastSeen c = 9 ∧
    ∀ clock : string → time.Time,
      clock "192.0.2.1" - 9 ≤ 3 * time.Minute → sweep clock clients' !! "192.0.2.1" = Some c.
Proof.
  apply (every_request_refreshes_lastSeen default_limiter_config "192.0.2.1" 9
           spent_registry eq_refl).
Defined.

(** X3.  A run answers each request once, in order, and the registry gains
    entries only for addresses that sent a request: nothing else is ever
    inserted into the map. *)
Theorem registry_grows_by_requests_only (cfg : limiter_config)
    (events : list Event) (clients : gmap string Client) :
  ∃ final log,
    serve cfg events clients = Some (final, log) ∧
    log.*1 = addresses events ∧
    dom final ⊆ dom clients ∪ list_to_set (addresses events).
Proof.
  revert clients.
  induction events as [|[ip now|clock] events IH]; intros clients.
  - exists clients, []. split; [done|]. split; [done|]. set_solver.
  - rewrite serve_cons_request.
    destruct (IH (outcome cfg ip now clients).1) as (final & log & -> & Hlog & Hdom).
    exists final, ((ip, (outcome cfg ip now clients).2) :: log).
    split; [done|]. split; [by rewrite fmap_cons, Hlog|].
    assert (dom (outcome cfg ip now clients).1 ⊆ dom clients ∪ {[ip]}) as Hstep.
    { unfold outcome. destruct (enabled cfg); simpl; [|set_solver].
      rewrite dom_insert. set_solver. }
    unfold addresses in *. simpl. set_solver.
  - cbn [serve]. destruct (IH (sweep clock clients)) as (final & log & -> & Hlog & Hdom).
    exists final, log. split; [done|]. split; [done|].
    assert (dom (sweep clock clients) ⊆ dom clients) as Hsub.
    { apply subseteq_dom, map_filter_subseteq. }
    unfold addresses in *. simpl. set_solver.
Qed.

(** X4.  The mutex of the handler (lines 92-115): whatever the requests, the
    configuration and the order of the turns, two different goroutines are
    never both between [mutex.Lock()] and [mutex.Unlock()]. *)
Theorem mutex_excludes (cfg : limiter_config) (req : nat → string * time.Time)
    (schedule : list nat) (n : nat) (clients : gmap string Client) (w : World)
    (i j : nat) (pci pcj : Pc) :
  run cfg req schedule (arrivals n clients) = Some w →
  pcs w !! i = Some pci →
  pcs w !! j = Some pcj →
  i ≠ j →
  in_section pci →
  ¬ in_section pcj.
Proof.
  intros Hrun Hi Hj Hne Hsi Hsj.
  assert (∀ w0 w1, (∀ k pc, pcs w0 !! k = Some pc → in_section pc → mutex w0 = Some k) →
            run cfg req schedule w0 = Some w1 →
            ∀ k pc, pcs w1 !! k = Some pc → in_section pc → mutex w1 = Some k) as Hinv.
  { clear. induction schedule as [|i schedule IH]; intros w0 w1 Hex Hrun.
    - by injection Hrun as <-.
    - cbn [run] in Hrun. set (ip := (req i).1) in *. set (now := (req i).2) in *.
      destruct (move cfg ip now i w0) as [w'| |] eqn:Hmove; [|by eapply IH|done].
      apply (IH w'); [|done]. clear IH Hrun.
      unfold move in Hmove. destruct (pcs w0 !! i) as [pc|] eqn:Hi; [|done].
      assert (∀ (new : Pc) mu cl,
                (in_section new → mu = Some i) →
                (∀ k pc', k ≠ i → pcs w0 !! k = Some pc' → in_section pc' → mu = Some k) →
                ∀ k pc', pcs {| mutex := mu; registry := cl; pcs := <[i := new]> (pcs w0) |} !! k
                         = Some pc' → in_section pc' → mu = Some k) as Hgo.
      { intros new mu cl Hnew Hothers k pc' Hk Hsec. cbn [pcs] in Hk.
        destruct (decide (k = i)) as [->|Hne].
        - rewrite list_lookup_insert_eq in Hk by (by eapply lookup_lt_Some).
          injection Hk as <-. by apply Hnew.
        - rewrite list_lookup_insert_ne in Hk by done. by eapply Hothers. }
      assert (∀ k pc', k ≠ i → in_section pc → pcs w0 !! k = Some pc' → ¬ in_section pc')
        as Halone.
      { intros k pc' Hne Hsec Hk Hsec'.
        pose proof (Hex i pc Hi Hsec). pose proof (Hex k pc' Hk Hsec'). congruence. }
      destruct pc as [| | | | |v|v]; try done.
      + destruct (enabled cfg).
        * destruct (mutex w0) eqn:Hmu; [done|]. injection Hmove as <-.
          apply Hgo; [done|]. intros k pc' _ Hk Hsec.
          pose proof (Hex k pc' Hk Hsec). congruence.
        * injection Hmove as <-. unfold goto. apply Hgo; [done|].
          intros k pc' _ Hk Hsec. by apply (Hex k pc').
      + pose proof (Hex i _ Hi I) as Hmu.
        destruct (registry w0 !! ip); injection Hmove as <-; unfold goto;
          (apply Hgo; [done|]); intros k pc' _ Hk Hsec; by apply (Hex k pc').
      + pose proof (Hex i _ Hi I) as Hmu. injection Hmove as <-. unfold goto.
        apply Hgo; [done|]. intros k pc' _ Hk Hsec. by apply (Hex k pc').
      + pose proof (Hex i _ Hi I) as Hmu.
        destruct (touch ip now (registry w0)); [|done]. injection Hmove as <-. unfold goto.
        apply Hgo; [done|]. intros k pc' _ Hk Hsec. by apply (Hex k pc').
      + pose proof (Hex i _ Hi I) as Hmu.
        destruct (consult ip now (registry w0)) as [[cl ok]|]; [|done].
        injection Hmove as <-. unfold goto.
        apply Hgo; [done|]. intros k pc' _ Hk Hsec. by apply (Hex k pc').
      + injection Hmove as <-. apply Hgo; [done|].
        intros k pc' Hne Hk Hsec. by destruct (Halone k pc' Hne I Hk). }
  assert (∀ k pc, pcs w !! k = Some pc → in_section pc → mutex w = Some k) as Hw.
  { apply (Hinv (arrivals n clients)); [|done].
    intros k pc Hk. unfold arrivals in Hk; cbn [pcs] in Hk.
    apply lookup_replicate in Hk. destruct Hk as [-> _]. done. }
  pose proof (Hw i pci Hi Hsi). pose proof (Hw j pcj Hj Hsj). congruence.
Qed.

Lemma mutex_excludes_witness : ¬ in_section Arrived.
Proof.
  eapply (mutex_excludes default_limiter_config
            (λ k, if (k =? 0)%nat then ("192.0.2.1", 0) else ("198.51.100.7", 1))
            [3; 0; 3; 1]%nat 5 ∅ _ 3 0 AtCreate Arrived).
  - vm_compute. reflexivity.
  - reflexivity.
  - reflexivity.
  - discriminate.
  - exact I.
Defined.

(** * The other middleware *)

Section split.

Implicit Types (s a b : string) (sep c : Ascii.ascii).

Lemma Split_nonempty s sep : gostrings.Split s sep ≠ [].
Proof.
  induction s as [|c s IH]; simpl; [done|].
  destruct (Ascii.eqb c sep); [done|]. by destruct (gostrings.Split s sep).
Qed.

Lemma Split_no_separator s sep :
  gostrings.Contains s sep = false → gostrings.Split s sep = [s].
Proof.
  induction s as [|c s IH]; simpl; [done|].
  intros [Hc Hs]%orb_false_elim. rewrite Hc, (IH Hs). done.
Qed.

Lemma Split_append a b sep :
  gostrings.Contains a sep = false →
  gostrings.Split (a +:+ String sep b) sep = a :: gostrings.Split b sep.
Proof.
  induction a as [|c a IH]; simpl.
  - intros _. by rewrite Ascii.eqb_refl.
  - intros [Hc Ha]%orb_false_elim. rewrite Hc.
    change (String.append a (String sep b)) with (a +:+ String sep b).
    by rewrite (IH Ha).
Qed.

Lemma Split_head s sep : ∀ a rest,
  gostrings.Split s sep = a :: rest →
  gostrings.Contains a sep = false ∧
  ((rest = [] ∧ s = a) ∨
   (∃ b, s = a +:+ String sep b ∧ gostrings.Split b sep = rest)).
Proof.
  induction s as [|c s IH]; simpl; intros a rest Hsplit.
  - injection Hsplit as <- <-. split; [done|]. by left.
  - destruct (Ascii.eqb c sep) eqn:Hc.
    + apply Ascii.eqb_eq in Hc as ->. injection Hsplit as <- <-.
      split; [done|]. right. by exists s.
    + destruct (gostrings.Split s sep) as [|piece pieces] eqn:Hs.
      { by destruct (Split_nonempty s sep). }
      injection Hsplit as <- <-.
      destruct (IH piece pieces eq_refl) as [Hno Hcases].
      split; [simpl; by rewrite Hc, Hno|].
      destruct Hcases as [[-> ->]|(b & -> & Hb)]; [by left|].
      right. by exists b.
Qed.

(** Two pieces: one separator, between them. *)
Lemma Split_two s sep a b :
  gostrings.Split s sep = [a; b] ↔
  s = a +:+ String sep b ∧
  gostrings.Contains a sep = false ∧ gostrings.Contains b sep = false.
Proof.
  split.
  - intros Hsplit. destruct (Split_head s sep a [b] Hsplit) as [Ha Hcases].
    destruct Hcases as [[[=] _]|(b' & -> & Hb')].
    destruct (Split_head b' sep b [] Hb') as [Hb [[_ ->]|(b'' & _ & Hnil)]]; [done|].
    by destruct (Split_nonempty b'' sep).
  - intros (-> & Ha & Hb). by rewrite Split_append, Split_no_separator.
Qed.

Lemma CutPrefix_Some s prefix rest :
  gostrings.CutPrefix s prefix = Some rest ↔ s = prefix +:+ rest.
Proof.
  revert s. induction prefix as [|p prefix IH]; intros s; simpl.
  - split; [by intros [= ->] | by intros ->].
  - destruct s as [|c s]; [done|].
    destruct (Ascii.eqb c p) eqn:Hc.
    + apply Ascii.eqb_eq in Hc as ->. rewrite IH. split; [by intros ->|].
      by intros [= ->].
    + split; [done|]. intros [= -> _]. by rewrite Ascii.eqb_refl in Hc.
Qed.

End split.

(** X5.  [authenticate] (lines 122-180) lets a request with a non-empty
    Authorization header through only when the header is the word [Bearer],
    one space, and a token without a space: written with [CutPrefix] in place
    of [Split], the handler is the one below.  A second space, another scheme
    or a missing token part ends in [invalidAuthenticationTokenResponse]
    without the token store being asked. *)
Theorem authenticate_parses_bearer (app : application)
    (next : http.Handler (Ctx app)) (w : http.ResponseWriter)
    (r : http.Request (Ctx app)) :
  authenticate app next w r =
  let w' := http.HeaderAdd "Vary" "Authorization" w in
  let header := http.Get "Authorization" (http.RequestHeader r) in
  if decide (header = EmptyString) then next w' (contextSetUser app r (AnonymousUser app))
  else
    match gostrings.CutPrefix header "Bearer " with
    | Some token =>
        if gostrings.Contains token " " then invalidAuthenticationTokenResponse app w' r
        else if TokenPlainTextValid app token then
          match GetForToken app (ScopeAuthentication app) token with
          | UserFound user => next w' (contextSetUser app r user)
          | RecordNotFound => invalidAuthenticationTokenResponse app w' r
          | LookupFailed err => serverErrorResponse app err w' r
          end
        else invalidAuthenticationTokenResponse app w' r
    | None => invalidAuthenticationTokenResponse app w' r
    end.
Proof.
  unfold authenticate. cbv zeta.
  set (w' := http.HeaderAdd "Vary" "Authorization" w).
  set (header := http.Get "Authorization" (http.RequestHeader r)).
  destruct (decide (header = EmptyString)) as [|Hne]; [done|].
  destruct (gostrings.CutPrefix header "Bearer ") as [token|] eqn:Hcut.
  - apply CutPrefix_Some in Hcut.
    destruct (gostrings.Contains token " ") eqn:Hsp.
    + destruct (gostrings.Split header " ") as [|a [|b [|c rest]]] eqn:Hsplit; try done.
      destruct (decide (a = "Bearer")) as [->|]; [|done].
      apply Split_two in Hsplit as (Heq & _ & Hb).
      rewrite Hcut in Heq. injection Heq as Heq. change (token = b) in Heq.
      congruence.
    + assert (gostrings.Split header " " = ["Bearer"; token]) as ->.
      { apply Split_two. by rewrite Hcut. }
      by rewrite decide_True.
  - destruct (gostrings.Split header " ") as [|a [|b [|c rest]]] eqn:Hsplit; try done.
    destruct (decide (a = "Bearer")) as [->|]; [|done].
    apply Split_two in Hsplit as (Heq & _ & _).
    assert (gostrings.CutPrefix header "Bearer " = Some b) as Hcut'.
    { apply CutPrefix_Some. rewrite Heq. reflexivity. }
    congruence.
Qed.

Example authenticate_two_spaces :
  authenticate demo_application (λ w _, http.WriteHeader 200 w) blank_response
    (http.mkRequest "GET" {[ "Authorization" := ["Bearer  letmein"] ]} None)
  = {| http.ResponseHeader := {[ "Vary" := ["Authorization"] ]}; http.Status := Some 401 |}.
Proof. vm_compute. reflexivity. Qed.

Example authenticate_good_token :
  authenticate demo_application (λ w r, http.WriteHeader (200 + (contextGetUser demo_application r).1) w)
    blank_response
    (http.mkRequest "GET" {[ "Authorization" := ["Bearer letmein"] ]} None)
  = {| http.ResponseHeader := {[ "Vary" := ["Authorization"] ]}; http.Status := Some 207 |}.
Proof. vm_compute. reflexivity. Qed.

Lemma enableCORS_loop_member {C : Type} (trusted : list string) (origin : string)
    (w : http.ResponseWriter) (r : http.Request C) :
  enableCORS_loop trusted origin w r =
  if decide (origin ∈ trusted) then
    if is_preflight r then
      (http.WriteHeader http.StatusOK
         (http.HeaderSet "Access-Control-Allow-Headers" "Authorization, Content-Type"
            (http.HeaderSet "Access-Control-Allow-Methods" "OPTIONS, PUT, PATCH, DELETE"
               (http.HeaderSet "Access-Control-Allow-Origin" origin w))), true)
    else (http.HeaderSet "Access-Control-Allow-Origin" origin w, false)
  else (w, false).
Proof.
  induction trusted as [|o trusted IH]; cbn [enableCORS_loop].
  - destruct (decide (origin ∈ [])) as [Hin|]; [|done]. by apply elem_of_nil in Hin.
  - destruct (decide (origin = o)) as [->|Hne].
    + destruct (decide (o ∈ o :: trusted)) as [|Hout]; [done|].
      destruct Hout. apply list_elem_of_here.
    + rewrite IH. destruct (decide (origin ∈ trusted)) as [Hin|Hout].
      * destruct (decide (origin ∈ o :: trusted)) as [|Hout]; [done|].
        destruct Hout. by apply list_elem_of_further.
      * destruct (decide (origin ∈ o :: trusted)) as [Hin|]; [|done].
        apply elem_of_cons in Hin. tauto.
Qed.

(** X6.  [enableCORS] (lines 250-290) depends on the list of trusted
    origins only through membership: the order and the repetitions of the
    list do not matter.  The response gets [Access-Control-Allow-Origin] only
    for a request whose own non-empty Origin is in the list, and then with
    that very origin as its value; a request of any other origin goes to the
    next handler with the two Vary values added and nothing else; a
    preflight request of a trusted origin is answered without the next
    handler. *)
Theorem enableCORS_by_membership {C : Type} (trusted : list string)
    (next : http.Handler C) (w : http.ResponseWriter) (r : http.Request C) :
  enableCORS trusted next w r =
  let w' := http.HeaderAdd "Vary" "Access-Control-Request-Method"
              (http.HeaderAdd "Vary" "Origin" w) in
  let origin := http.Get "Origin" (http.RequestHeader r) in
  if decide (origin ≠ EmptyString ∧ origin ∈ trusted) then
    if is_preflight r then
      http.WriteHeader http.StatusOK
        (http.HeaderSet "Access-Control-Allow-Headers" "Authorization, Content-Type"
           (http.HeaderSet "Access-Control-Allow-Methods" "OPTIONS, PUT, PATCH, DELETE"
              (http.HeaderSet "Access-Control-Allow-Origin" origin w')))
    else next (http.HeaderSet "Access-Control-Allow-Origin" origin w') r
  else next w' r.
Proof.
  unfold enableCORS. cbv zeta.
  set (w' := http.HeaderAdd "Vary" "Access-Control-Request-Method" _).
  set (origin := http.Get "Origin" (http.RequestHeader r)).
  destruct (decide (origin = EmptyString)) as [Hempty|Hne].
  - rewrite decide_False; [done|]. tauto.
  - rewrite enableCORS_loop_member.
    destruct (decide (origin ∈ trusted)) as [Hin|Hout].
    + rewrite decide_True by done. by destruct (is_preflight r).
    + rewrite decide_False; [done|]. tauto.
Qed.

(** X7.  The answer to a preflight request of a trusted origin: the three
    CORS headers hold the request's origin, the fixed list of methods and the
    fixed list of headers, whatever the response carried before; the status
    is 200 unless one was already written; the next handler is not run. *)
Theorem enableCORS_preflight {C : Type} (trusted : list string)
    (next : http.Handler C) (w : http.ResponseWriter) (r : http.Request C) :
  http.Get "Origin" (http.RequestHeader r) ≠ EmptyString →
  http.Get "Origin" (http.RequestHeader r) ∈ trusted →
  http.Method r = "OPTIONS" →
  http.Get "Access-Control-Request-Method" (http.RequestHeader r) ≠ EmptyString →
  let answer := enableCORS trusted next w r in
  http.ResponseHeader answer !! "Access-Control-Allow-Origin"
    = Some [http.Get "Origin" (http.RequestHeader r)] ∧
  http.ResponseHeader answer !! "Access-Control-Allow-Methods"
    = Some ["OPTIONS, PUT, PATCH, DELETE"] ∧
  http.ResponseHeader answer !! "Access-Control-Allow-Headers"
    = Some ["Authorization, Content-Type"] ∧
  http.ResponseHeader answer !! "Vary"
    = Some (default [] (http.ResponseHeader w !! "Vary")
            ++ ["Origin"; "Access-Control-Request-Method"]) ∧
  http.Status answer = Some (default 200 (http.Status w)).
Proof.
  intros Hne Hin Hopt Hreq. cbv zeta. unfold enableCORS. cbv zeta.
  rewrite decide_False by done. rewrite enableCORS_loop_member.
  rewrite decide_True by done.
  assert (is_preflight r = true) as ->.
  { unfold is_preflight, http.MethodOptions.
    rewrite bool_decide_eq_true_2 by done. by rewrite bool_decide_eq_false_2. }
  unfold http.WriteHeader, http.HeaderSet, http.HeaderAdd, http.Set_, http.Add.
  cbn [http.ResponseHeader http.Status].
  repeat split.
  - rewrite lookup_insert_ne by done. rewrite lookup_insert_ne by done.
    by rewrite lookup_insert_eq.
  - rewrite lookup_insert_ne by done. by rewrite lookup_insert_eq.
  - by rewrite lookup_insert_eq.
  - rewrite !lookup_insert_ne by done. rewrite lookup_insert_eq.
    rewrite lookup_insert_eq. simpl. by rewrite <- app_assoc.
  - by destruct (http.Status w).
Qed.

Lemma enableCORS_preflight_witness :
  let r : http.Request (option (Z * bool)) :=
    http.mkRequest "OPTIONS"
      {[ "Origin" := ["https://admin.example"];
         "Access-Control-Request-Method" := ["PUT"] ]} None in
  let answer :=
    enableCORS (trustedOrigins demo_application)
      (λ w _, http.WriteHeader 404 w) blank_response r in
  http.ResponseHeader answer !! "Access-Control-Allow-Origin"
    = Some [http.Get "Origin" (http.RequestHeader r)] ∧
  http.ResponseHeader answer !! "Access-Control-Allow-Methods"
    = Some ["OPTIONS, PUT, PATCH, DELETE"] ∧
  http.ResponseHeader answer !! "Access-Control-Allow-Headers"
    = Some ["Authorization, Content-Type"] ∧
  http.ResponseHeader answer !! "Vary"
    = Some (default [] (http.ResponseHeader blank_response !! "Vary")
            ++ ["Origin"; "Access-Control-Request-Method"]) ∧
  http.Status answer = Some (default 200 (http.Status blank_response)).
Proof.
  intros r.
  apply (enableCORS_preflight (trustedOrigins demo_application)
           (λ w _, http.WriteHeader 404 w) blank_response r).
  - vm_compute. discriminate.
  - vm_compute. apply list_elem_of_further, list_elem_of_here.
  - reflexivity.
  - vm_compute. discriminate.
Defined.

Lemma requirePermission_unfold (app : application) (code : string)
    (next : http.Handler (Ctx app)) (w : http.ResponseWriter)
    (r : http.Request (Ctx app)) :
  requirePermission app code next w r =
  if IsAnonymous app (contextGetUser app r) then authenticationRequiredResponse app w r
  else if Activated app (contextGetUser app r) then
    match GetAllForUser app (ID app (contextGetUser app r)) with
    | inr err => serverErrorResponse app err w r
    | inl permissions =>
        if Include app permissions code then next w r
        else notPermittedResponse app w r
    end
  else inactiveAccountResponse app w r.
Proof.
  unfold requirePermission, requireActivatedUser, requireAuthenticatedUser. cbv zeta.
  destruct (IsAnonymous app _); [done|].
  destruct (Activated app _); simpl; [|done].
  destruct (GetAllForUser app _) as [permissions|err]; [|done].
  by destruct (Include app permissions code).
Qed.

(** X8.  A route wrapped in [requirePermission] behind [authenticate], in an
    application whose context hands back the user that was stored in it and
    whose anonymous user says it is anonymous: a request without an
    Authorization header is answered by [authenticationRequiredResponse];
    the wrapped handler is not run and the permissions are not fetched. *)
Theorem protected_route_requires_login (app : application) (code : string)
    (next : http.Handler (Ctx app)) (w : http.ResponseWriter)
    (r : http.Request (Ctx app)) :
  (∀ r' user, contextGetUser app (contextSetUser app r' user) = user) →
  IsAnonymous app (AnonymousUser app) = true →
  http.Get "Authorization" (http.RequestHeader r) = EmptyString →
  authenticate app (requirePermission app code next) w r =
  authenticationRequiredResponse app
    (http.HeaderAdd "Vary" "Authorization" w)
    (contextSetUser app r (AnonymousUser app)).
Proof.
  intros Hctx Hanon Hheader.
  unfold authenticate. cbv zeta. rewrite Hheader.
  rewrite decide_True by done.
  by rewrite requirePermission_unfold, Hctx, Hanon.
Qed.

Lemma protected_route_requires_login_witness :
  authenticate demo_application
    (requirePermission demo_application "movies:read" (λ w _, http.WriteHeader 200 w))
    blank_response (http.mkRequest "GET" ∅ None) =
  authenticationRequiredResponse demo_application
    (http.HeaderAdd "Vary" "Authorization" blank_response)
    (contextSetUser demo_application (http.mkRequest "GET" ∅ None)
       (AnonymousUser demo_application)).
Proof.
  apply (protected_route_requires_login demo_application "movies:read"
           (λ w _, http.WriteHeader 200 w) blank_response (http.mkRequest "GET" ∅ None)).
  - intros r' user. reflexivity.
  - reflexivity.
  - reflexivity.
Defined.

(** X9.  The same route for a request whose header is [Bearer], a space and
    a valid token that the store knows: the user of the token is put in the
    context, and the checks run in this order: anonymous (401), not
    activated (403), permissions not fetched (500), permission missing (403);
    the wrapped handler runs only when all four pass. *)
Theorem protected_route_checks_in_order (app : application) (code token : string)
    (user : User app) (next : http.Handler (Ctx app)) (w : http.ResponseWriter)
    (r : http.Request (Ctx app)) :
  (∀ r' user', contextGetUser app (contextSetUser app r' user') = user') →
  http.Get "Authorization" (http.RequestHeader r) = "Bearer " +:+ token →
  gostrings.Contains token " " = false →
  TokenPlainTextValid app token = true →
  GetForToken app (ScopeAuthentication app) token = UserFound user →
  authenticate app (requirePermission app code next) w r =
  let w' := http.HeaderAdd "Vary" "Authorization" w in
  let r' := contextSetUser app r user in
  if IsAnonymous app user then authenticationRequiredResponse app w' r'
  else if Activated app user then
    match GetAllForUser app (ID app user) with
    | inr err => serverErrorResponse app err w' r'
    | inl permissions =>
        if Include app permissions code then next w' r'
        else notPermittedResponse app w' r'
    end
  else inactiveAccountResponse app w' r'.
Proof.
  intros Hctx Hheader Hspace Hvalid Hfound. cbv zeta.
  unfold authenticate. cbv zeta. rewrite Hheader.
  rewrite decide_False by done.
  assert (gostrings.Split ("Bearer " +:+ token) " " = ["Bearer"; token]) as ->
    by (by apply Split_two).
  rewrite decide_True by done. rewrite Hvalid, Hfound.
  by rewrite requirePermission_unfold, Hctx.
Qed.

Lemma protected_route_checks_in_order_witness :
  authenticate demo_application
    (requirePermission demo_application "movies:write" (λ w _, http.WriteHeader 200 w))
    blank_response
    (http.mkRequest "GET" {[ "Authorization" := ["Bearer letmein"] ]} None) =
  let w' := http.HeaderAdd "Vary" "Authorization" blank_response in
  let r' := contextSetUser demo_application
              (http.mkRequest "GET" {[ "Authorization" := ["Bearer letmein"] ]} None)
              (7, true) in
  if IsAnonymous demo_application (7, true)
  then authenticationRequiredResponse demo_application w' r'
  else if Activated demo_application (7, true) then
    match GetAllForUser demo_application (ID demo_application (7, true)) with
    | inr err => serverErrorResponse demo_application err w' r'
    | inl permissions =>
        if Include demo_application permissions "movies:write"
        then (λ w _, http.WriteHeader 200 w) w' r'
        else notPermittedResponse demo_application w' r'
    end
  else inactiveAccountResponse demo_application w' r'.
Proof.
  apply (protected_route_checks_in_order demo_application "movies:write" "letmein"
           (7, true) (λ w _, http.WriteHeader 200 w) blank_response
           (http.mkRequest "GET" {[ "Authorization" := ["Bearer letmein"] ]} None)).
  - intros r' user'. reflexivity.
  - vm_compute. reflexivity.
  - reflexivity.
  - reflexivity.
  - reflexivity.
Defined.

Example protected_route_wrong_permission :
  http.Status (authenticate demo_application
    (requirePermission demo_application "movies:write" (λ w _, http.WriteHeader 200 w))
    blank_response
    (http.mkRequest "GET" {[ "Authorization" := ["Bearer letmein"] ]} None))
  = Some 403.
Proof. vm_compute. reflexivity. Qed.

(** * The metrics middleware *)

Section counters.

Lemma wrap_add (a b : Z) : int64.wrap (int64.wrap a + b) = int64.wrap (a + b).
Proof.
  unfold int64.wrap. f_equal.
  replace ((a + 2 ^ 63) mod 2 ^ 64 - 2 ^ 63 + b + 2 ^ 63)
    with ((a + 2 ^ 63) mod 2 ^ 64 + b) by lia.
  rewrite Zplus_mod_idemp_l. f_equal. lia.
Qed.

Lemma wrap_idem (z : Z) : int64.wrap (int64.wrap z) = int64.wrap z.
Proof.
  rewrite <- (Z.add_0_r (int64.wrap z)) at 1. rewrite wrap_add. f_equal. lia.
Qed.

Lemma wrap_small (z : Z) : - 2 ^ 63 ≤ z < 2 ^ 63 → int64.wrap z = z.
Proof. intros Hz. unfold int64.wrap. rewrite Z.mod_small; lia. Qed.

Lemma Itoa_parses (i : Z) :
  DecimalString.NilZero.int_of_string (strconv.Itoa i) = Some (Z.to_int i).
Proof.
  unfold strconv.Itoa. apply DecimalString.NilZero.isi.
  - destruct i as [|p|p]; simpl; try done.
    intros [= Hnil]. by apply (DecimalPos.Unsigned.to_uint_nonnil p).
  - destruct i as [|p|p]; simpl; try done.
    intros [= Hnil]. by apply (DecimalPos.Unsigned.to_uint_nonnil p).
Qed.

Lemma Itoa_inj (i j : Z) : strconv.Itoa i = strconv.Itoa j → i = j.
Proof.
  intros Heq. apply DecimalZ.to_int_inj.
  pose proof (Itoa_parses i) as Hi. rewrite Heq, Itoa_parses in Hi. congruence.
Qed.

Lemma responses_with_cons code m reports :
  responses_with code (m :: reports) =
  (if decide (Code m = code) then 1 else 0) + responses_with code reports.
Proof.
  unfold responses_with. rewrite filter_cons.
  destruct (decide (Code m = code)); simpl length; lia.
Qed.

Lemma responses_with_nonneg code reports : 0 ≤ responses_with code reports.
Proof. unfold responses_with. lia. Qed.

Lemma metrics_serve_from {C : Type}
    (CaptureMetrics : http.Handler C → http.ResponseWriter → http.Request C
                      → Metrics * http.ResponseWriter)
    (next : http.Handler C) (requests : list (http.ResponseWriter * http.Request C)) :
  ∀ vars,
    int64.wrap (totalRequestsReceived vars) = totalRequestsReceived vars →
    int64.wrap (totalResponsesReceived vars) = totalResponsesReceived vars →
    int64.wrap (totalProcessingTimeMicroseconds vars)
      = totalProcessingTimeMicroseconds vars →
    totalRequestsReceived (metrics_serve CaptureMetrics next requests vars)
      = int64.wrap (totalRequestsReceived vars + Z.of_nat (length requests)) ∧
    totalResponsesReceived (metrics_serve CaptureMetrics next requests vars)
      = int64.wrap (totalResponsesReceived vars + Z.of_nat (length requests)) ∧
    totalProcessingTimeMicroseconds (metrics_serve CaptureMetrics next requests vars)
      = int64.wrap (totalProcessingTimeMicroseconds vars
                    + microseconds_of (captured CaptureMetrics next requests)) ∧
    ∀ code,
      totalResponsesSentByStatus (metrics_serve CaptureMetrics next requests vars)
        !! strconv.Itoa code
      = bumped (responses_with code (captured CaptureMetrics next requests))
          (totalResponsesSentByStatus vars !! strconv.Itoa code).
Proof.
  induction requests as [|[w r] requests IH]; intros vars H1 H2 H3.
  - cbn [metrics_serve captured fmap list_fmap length microseconds_of foldr].
    rewrite !Z.add_0_r, H1, H2, H3. done.
  - cbn [metrics_serve]. unfold metrics at 1 2 3 4.
    unfold captured. rewrite fmap_cons. fold (captured CaptureMetrics next requests).
    cbn [fst snd].
    destruct (CaptureMetrics next w r) as [m w'] eqn:Hm. cbn [fst snd].
    match goal with |- context [metrics_serve _ _ _ ?v] => set (vars1 := v) end.
    destruct (IH vars1) as (Hr & Hs & Ht & Hm');
      [unfold vars1, Int_Add;
       cbn [totalRequestsReceived totalResponsesReceived totalProcessingTimeMicroseconds];
       apply wrap_idem ..|].
    rewrite Hr, Hs, Ht. unfold vars1 at 1 2 3. cbn [totalRequestsReceived
      totalResponsesReceived totalProcessingTimeMicroseconds]. unfold Int_Add.
    rewrite !wrap_add. cbn [length]. unfold microseconds_of. rewrite fmap_cons.
    cbn [foldr]. fold (microseconds_of (captured CaptureMetrics next requests)).
    repeat split; try (f_equal; lia).
    intros code. rewrite Hm', responses_with_cons.
    pose proof (responses_with_nonneg code (captured CaptureMetrics next requests)) as Hn.
    unfold vars1; cbn [totalResponsesSentByStatus]. unfold Map_Add, Int_Add, bumped.
    destruct (decide (Code m = code)) as [->|Hne].
    + rewrite lookup_insert_eq.
      destruct (Z.eqb_spec (responses_with code (captured CaptureMetrics next requests)) 0)
        as [->|Hpos].
      * by rewrite Z.add_0_r.
      * destruct (Z.eqb_spec
          (1 + responses_with code (captured CaptureMetrics next requests)) 0); [lia|].
        simpl default. rewrite wrap_add. do 2 f_equal. lia.
    + rewrite lookup_insert_ne by (intros Heq; by apply Itoa_inj in Heq).
      by rewrite Z.add_0_l.
Qed.

End counters.

(** X10.  The four variables of [metrics] (lines 292-318), from their
    creation, after any number of requests served to the end: the requests
    received and the responses sent are both the number of requests, the
    processing time is the sum of the reported microseconds, and the counter
    of each status code is the number of responses with that code, absent
    while that number is zero.  Two different codes never share a counter.
    Each count is held in an int64. *)
Theorem metrics_count_every_response {C : Type}
    (CaptureMetrics : http.Handler C → http.ResponseWriter → http.Request C
                      → Metrics * http.ResponseWriter)
    (next : http.Handler C) (requests : list (http.ResponseWriter * http.Request C)) :
  let vars := metrics_serve CaptureMetrics next requests new_counters in
  let reports := captured CaptureMetrics next requests in
  totalRequestsReceived vars = int64.wrap (Z.of_nat (length requests)) ∧
  totalResponsesReceived vars = totalRequestsReceived vars ∧
  totalProcessingTimeMicroseconds vars = int64.wrap (microseconds_of reports) ∧
  ∀ code,
    totalResponsesSentByStatus vars !! strconv.Itoa code =
    if responses_with code reports =? 0 then None
    else Some (int64.wrap (responses_with code reports)).
Proof.
  cbv zeta.
  destruct (metrics_serve_from CaptureMetrics next requests new_counters)
    as (Hr & Hs & Ht & Hm); [done..|].
  rewrite Hr, Hs, Ht. cbn [new_counters totalRequestsReceived totalResponsesReceived
    totalProcessingTimeMicroseconds]. rewrite !Z.add_0_l.
  repeat split. intros code. rewrite Hm. unfold bumped.
  cbn [new_counters totalResponsesSentByStatus]. rewrite lookup_empty. simpl default.
  by rewrite Z.add_0_l.
Qed.

Example metrics_three_requests :
  (λ vars, (totalRequestsReceived vars, totalResponsesReceived vars,
            totalProcessingTimeMicroseconds vars,
            map_to_list (totalResponsesSentByStatus vars))) 
    (metrics_serve
       (λ next w (r : http.Request unit),
          ({| Code := if decide (http.Method r = "GET") then 200 else 405;
              Duration := 1234567 |}, next w r))
       (λ w _, w)
       [(blank_response, http.mkRequest "GET" ∅ tt);
        (blank_response, http.mkRequest "PUT" ∅ tt);
        (blank_response, http.mkRequest "GET" ∅ tt)]
       new_counters)
  = (3, 3, 3702, [("200", 2); ("405", 1)]).
Proof. vm_compute. reflexivity. Qed.


(** * The runtime of a movie in JSON *)

Section runtime.

Lemma digits_no_space (d : Decimal.uint) :
  gostrings.Contains (DecimalString.NilEmpty.string_of_uint d) " " = false.
Proof. induction d; simpl; done. Qed.

Lemma Itoa_no_space (i : Z) : gostrings.Contains (strconv.Itoa i) " " = false.
Proof.
  unfold strconv.Itoa.
  destruct i as [|p|p]; simpl; [done| |];
    destruct (Pos.to_uint p); try done; simpl; apply digits_no_space.
Qed.

Lemma digits_head (d : Decimal.uint) :
  d ≠ Decimal.Nil →
  ∃ c rest, DecimalString.NilEmpty.string_of_uint d = String c rest ∧
            Ascii.eqb c "+" = false ∧ Ascii.eqb c "-" = false.
Proof. destruct d; [done|..]; intros _; simpl; eauto. Qed.

Lemma ParseInt_digits (p : positive) :
  DecimalString.NilZero.uint_of_string
    (DecimalString.NilEmpty.string_of_uint (Pos.to_uint p)) = Some (Pos.to_uint p) ∧
  Z.of_uint (Pos.to_uint p) = Z.pos p.
Proof.
  pose proof (DecimalPos.Unsigned.to_uint_nonnil p) as Hnil. split.
  - pose proof (DecimalString.NilZero.usu (Pos.to_uint p) Hnil) as Husu.
    unfold DecimalString.NilZero.string_of_uint in Husu.
    by destruct (Pos.to_uint p).
  - unfold Z.of_uint. by rewrite DecimalPos.Unsigned.of_to.
Qed.

(** What [Itoa] prints, [ParseInt] reads back, if the number fits. *)
Lemma ParseInt_Itoa (i bitSize : Z) :
  - 2 ^ (bitSize - 1) ≤ i < 2 ^ (bitSize - 1) →
  strconv.ParseInt (strconv.Itoa i) bitSize = Some i.
Proof.
  intros Hrange. unfold strconv.Itoa, strconv.ParseInt.
  destruct i as [|p|p]; simpl Z.to_int.
  - cbn. destruct (2 ^ (bitSize - 1) <=? 0) eqn:E; [lia|done].
  - destruct (ParseInt_digits p) as [Hparse Hval].
    pose proof (DecimalPos.Unsigned.to_uint_nonnil p) as Hnil.
    destruct (digits_head (Pos.to_uint p) Hnil) as (c & rest & Hs & Hplus & Hminus).
    cbn [DecimalString.NilZero.string_of_int].
    assert (DecimalString.NilZero.string_of_uint (Pos.to_uint p)
            = DecimalString.NilEmpty.string_of_uint (Pos.to_uint p)) as ->
      by (by destruct (Pos.to_uint p)).
    rewrite Hs in *. rewrite Hplus, Hminus. cbn [orb negb andb].
    rewrite Hparse, Hval.
    destruct (2 ^ (bitSize - 1) <=? Z.pos p) eqn:E; [lia|done].
  - destruct (ParseInt_digits p) as [Hparse Hval].
    cbn [DecimalString.NilZero.string_of_int].
    assert (DecimalString.NilZero.string_of_uint (Pos.to_uint p)
            = DecimalString.NilEmpty.string_of_uint (Pos.to_uint p)) as ->
      by (pose proof (DecimalPos.Unsigned.to_uint_nonnil p); by destruct (Pos.to_uint p)).
    change (Ascii.eqb "-" "-") with true. change (Ascii.eqb "-" "+") with false.
    cbn [orb negb andb]. rewrite Hparse, Hval.
    destruct (2 ^ (bitSize - 1) <? Z.pos p) eqn:E; [lia|done].
Qed.

Lemma ParseInt_range (s : string) (bitSize z : Z) :
  0 < bitSize →
  strconv.ParseInt s bitSize = Some z →
  - 2 ^ (bitSize - 1) ≤ z < 2 ^ (bitSize - 1).
Proof.
  intros Hbits.
  assert (0 < 2 ^ (bitSize - 1)) as Hcut by (apply Z.pow_pos_nonneg; lia).
  revert Hcut.
  unfold strconv.ParseInt. destruct s as [|c rest]; [done|].
  cbv zeta.
  destruct (DecimalString.NilZero.uint_of_string _) as [d|]; [|done].
  assert (0 ≤ Z.of_uint d) as Hpos by (unfold Z.of_uint; lia).
  generalize dependent (Z.of_uint d). intros un Hpos.
  generalize (2 ^ (bitSize - 1)). intros cutoff Hcut.
  destruct (Ascii.eqb c "-"); cbn [negb andb].
  - destruct (cutoff <? un) eqn:E; [done|].
    intros [= <-]. lia.
  - destruct (cutoff <=? un) eqn:E; [done|].
    intros [= <-]. lia.
Qed.

End runtime.

(** X11.  [MarshalJSON] then [UnmarshalJSON] gives the runtime back, for
    every int32 value, zero and the negative ones included, as long as
    [Unquote] undoes [Quote] on the text that was quoted. *)
Theorem runtime_round_trip (Quote : string → string) (Unquote : string → option string)
    (r : Z) :
  Unquote (Quote (strconv.Itoa r +:+ " mins")) = Some (strconv.Itoa r +:+ " mins") →
  - 2 ^ 31 ≤ r < 2 ^ 31 →
  UnmarshalJSON Unquote (MarshalJSON Quote r) = Some r.
Proof.
  intros Hquote Hrange. unfold UnmarshalJSON, MarshalJSON. cbv zeta.
  rewrite Hquote.
  assert (gostrings.Split (strconv.Itoa r +:+ " mins") " " = [strconv.Itoa r; "mins"]) as ->.
  { apply Split_two. split; [done|]. split; [apply Itoa_no_space | done]. }
  rewrite decide_True by done. by apply ParseInt_Itoa.
Qed.

Lemma runtime_round_trip_witness :
  UnmarshalJSON unquote_plain (MarshalJSON quote_plain (-102)) = Some (-102).
Proof.
  apply (runtime_round_trip quote_plain unquote_plain (-102)).
  - vm_compute. reflexivity.
  - lia.
Defined.

(** X12.  What [UnmarshalJSON] accepts: the unquoted text is a number text
    without a space, one space, and the word [mins]; the number text is one
    that [ParseInt] reads in base 10; and the runtime it yields fits an
    int32.  Everything else is [ErrInvalidRuntimeFormat]. *)
Theorem runtime_unmarshal_accepts (Unquote : string → option string)
    (jsonValue : string) (r : Z) :
  UnmarshalJSON Unquote jsonValue = Some r ↔
  ∃ minutes,
    Unquote jsonValue = Some (minutes +:+ " mins") ∧
    gostrings.Contains minutes " " = false ∧
    strconv.ParseInt minutes 32 = Some r ∧
    - 2 ^ 31 ≤ r < 2 ^ 31.
Proof.
  unfold UnmarshalJSON. split.
  - destruct (Unquote jsonValue) as [text|]; [|done].
    destruct (gostrings.Split text " ") as [|minutes [|unit [|? ?]]] eqn:Hsplit; try done.
    destruct (decide (unit = "mins")) as [->|]; [|done].
    intros Hparse. exists minutes.
    apply Split_two in Hsplit as (-> & Hno & _).
    split; [done|]. split; [done|]. split; [done|].
    by apply (ParseInt_range minutes 32 r ltac:(lia)).
  - intros (minutes & -> & Hno & Hparse & _).
    assert (gostrings.Split (minutes +:+ " mins") " " = [minutes; "mins"]) as ->.
    { apply Split_two. done. }
    by rewrite decide_True.
Qed.

Example runtime_signs_and_zeros :
  UnmarshalJSON unquote_plain (quote_plain "+007 mins") = Some 7 ∧
  UnmarshalJSON unquote_plain (quote_plain "102  mins") = None ∧
  UnmarshalJSON unquote_plain (quote_plain "102 minutes") = None ∧
  UnmarshalJSON unquote_plain (quote_plain "2147483648 mins") = None ∧
  UnmarshalJSON unquote_plain (quote_plain "-2147483648 mins") = Some (-2147483648) ∧
  UnmarshalJSON unquote_plain "102 mins" = None.
Proof. vm_compute. repeat split. Qed.

(** * Filters *)

Section filters.

Lemma sortColumn_loop_member (sort : string) (safelist : list string) :
  sortColumn_loop sort safelist =
  if decide (sort ∈ safelist) then Some (gostrings.TrimPrefix sort "-") else None.
Proof.
  induction safelist as [|safeValue rest IH]; cbn [sortColumn_loop].
  - destruct (decide (sort ∈ [])) as [Hin|]; [|done]. by apply elem_of_nil in Hin.
  - destruct (decide (sort = safeValue)) as [->|Hne].
    + destruct (decide (safeValue ∈ safeValue :: rest)) as [|Hout]; [done|].
      destruct Hout. apply list_elem_of_here.
    + rewrite IH. destruct (decide (sort ∈ rest)) as [Hin|Hout].
      * destruct (decide (sort ∈ safeValue :: rest)) as [|Hout]; [done|].
        destruct Hout. by apply list_elem_of_further.
      * destruct (decide (sort ∈ safeValue :: rest)) as [Hin|]; [|done].
        apply elem_of_cons in Hin. tauto.
Qed.

End filters.

(** X13.  [sortColumn] returns for a sort value of the safelist, and panics
    for every other; the column and the direction it is used with are the
    two halves of the sort value: a leading hyphen means [DESC] and is
    dropped from the column, anything else means [ASC] and is the column. *)
Theorem sort_column_and_direction (f : Filters) :
  sortColumn f =
    (if decide (Sort f ∈ SortSafelist f)
     then Some (gostrings.TrimPrefix (Sort f) "-") else None) ∧
  (sortDirection f = "DESC" ∧ Sort f = "-" +:+ gostrings.TrimPrefix (Sort f) "-" ∨
   sortDirection f = "ASC" ∧ Sort f = gostrings.TrimPrefix (Sort f) "-" ∧
     gostrings.CutPrefix (Sort f) "-" = None).
Proof.
  split; [apply sortColumn_loop_member|].
  unfold sortDirection, gostrings.HasPrefix, gostrings.TrimPrefix.
  destruct (gostrings.CutPrefix (Sort f) "-") as [rest|] eqn:Hcut.
  - left. split; [done|]. by apply CutPrefix_Some in Hcut.
  - right. done.
Qed.

Example sort_column_examples :
  sortColumn demo_filters = Some "year" ∧ sortDirection demo_filters = "DESC" ∧
  sortColumn {| Page := 1; PageSize := 20; Sort := "year; DROP TABLE movies";
                SortSafelist := SortSafelist demo_filters |} = None.
Proof. vm_compute. repeat split. Qed.

(** X14.  Filters that pass [ValidateFilters] are safe to query with: for
    any validator that a failed check makes invalid for good, and an [In]
    that is true only of members, if the validator is valid after
    [ValidateFilters] then [sortColumn] does not panic, the limit is between 1
    and 100, and the offset is [(Page - 1) * PageSize] without overflow,
    between 0 and 999999900. *)
Theorem validated_filters_are_safe {V : Type}
    (Check : bool → string → string → V → V) (Valid : V → bool)
    (In : string → list string → bool) (v : V) (f : Filters) :
  (∀ key message v', Valid (Check false key message v') = false) →
  (∀ ok key message v', Valid v' = false → Valid (Check ok key message v') = false) →
  (∀ value safelist, In value safelist = true → value ∈ safelist) →
  Valid (ValidateFilters Check In v f) = true →
  sortColumn f = Some (gostrings.TrimPrefix (Sort f) "-") ∧
  1 ≤ limit f ≤ 100 ∧
  offset f = (Page f - 1) * PageSize f ∧
  0 ≤ offset f ≤ 999999900.
Proof.
  intros Hfail Hkeep HIn Hvalid.
  assert (∀ ok key message v', Valid (Check ok key message v') = true →
                               ok = true ∧ Valid v' = true) as Hcheck.
  { intros ok key message v' Hv. split.
    - destruct ok; [done|]. by rewrite Hfail in Hv.
    - destruct (Valid v') eqn:E; [done|]. by rewrite (Hkeep _ _ _ _ E) in Hv. }
  unfold ValidateFilters in Hvalid. cbv zeta in Hvalid.
  apply Hcheck in Hvalid as [Hsort Hvalid].
  apply Hcheck in Hvalid as [Hsize2 Hvalid].
  apply Hcheck in Hvalid as [Hsize1 Hvalid].
  apply Hcheck in Hvalid as [Hpage2 Hvalid].
  apply Hcheck in Hvalid as [Hpage1 _].
  apply HIn in Hsort.
  split.
  { unfold sortColumn. rewrite sortColumn_loop_member. by rewrite decide_True. }
  unfold limit, offset.
  assert (int64.wrap (Page f - 1) = Page f - 1) as ->.
  { apply wrap_small. lia. }
  assert (0 ≤ (Page f - 1) * PageSize f ≤ 999999900) as Hbound by nia.
  rewrite wrap_small by lia. lia.
Qed.

Lemma validated_filters_are_safe_witness :
  sortColumn demo_filters = Some (gostrings.TrimPrefix (Sort demo_filters) "-") ∧
  1 ≤ limit demo_filters ≤ 100 ∧
  offset demo_filters = (Page demo_filters - 1) * PageSize demo_filters ∧
  0 ≤ offset demo_filters ≤ 999999900.
Proof.
  apply (validated_filters_are_safe demo_Check demo_Valid demo_In [] demo_filters).
  - intros key message v'. reflexivity.
  - intros ok key message v' Hv. destruct ok; [exact Hv | reflexivity].
  - intros value safelist Hin. exact (bool_decide_eq_true_1 _ Hin).
  - vm_compute. reflexivity.
Defined.

Example unvalidated_offset_overflows :
  offset {| Page := 4611686018427387905; PageSize := 4; Sort := "id";
            SortSafelist := ["id"] |} = 0.
Proof. vm_compute. reflexivity. Qed.
